(** * koyomi-bot: the solar-term / micro-season resolver of [main.py]

    A shallow embedding of [find_current_ko], [_find_ko_in_sekki],
    [format_message], [post_to_slack], [load_sekki_data] and [main], with
    the properties of the season table that the resolver relies on.

    Numbers.  The longitudes of the table and the input longitude are Python
    floats, binary64 values.  A finite float is modelled by the rational
    number it denotes, so that the comparisons of the model are the exact
    comparisons of the program.  The arithmetic of the program is the
    arithmetic of binary64: [+], [-] and [/] give the exact result rounded
    to the nearest binary64 value, ties to even, with gradual underflow and
    overflow to an infinity ([round64]); [int(...)] is truncation toward
    zero and raises on an infinity or a NaN.  An integer of the JSON
    document stands for the float of the same value.

    Exceptions.  A Python exception is a value of [exn]; a function that may
    raise returns a [result]. *)

From Stdlib Require Import QArith Qround Qpower ZArith List Bool String Ascii Lia Lqa.
Import ListNotations.

Local Open Scope Q_scope.

(** ** Exceptions and the error monad *)

Inductive exn : Type :=
  | IndexError
  | ZeroDivisionError
  | OverflowError
  | ValueError
  | FileNotFoundError
  | JSONDecodeError.

Inductive result (A : Type) : Type :=
  | Ok (a : A)
  | Raise (e : exn).

Arguments Ok {A} a.
Arguments Raise {A} e.

Definition bind {A B : Type} (r : result A) (k : A -> result B) : result B :=
  match r with
  | Ok a => k a
  | Raise e => Raise e
  end.

Notation "x <- r ;; k" := (bind r (fun x => k))
  (at level 61, r at next level, right associativity).

(** ** Python primitives used by the program *)

(** [l[i]] on a Python list: indices [0 .. len-1] count from the front,
    [-len .. -1] from the back, anything else raises [IndexError]. *)
Definition py_index {A : Type} (l : list A) (i : Z) : result A :=
  let n := Z.of_nat (List.length l) in
  let j := if (i <? 0)%Z then (n + i)%Z else i in
  if ((0 <=? j)%Z && (j <? n)%Z)%bool then
    match nth_error l (Z.to_nat j) with
    | Some a => Ok a
    | None => Raise IndexError
    end
  else Raise IndexError.

(** [int(q)]: truncation toward zero. *)
Definition py_int (q : Q) : Z := Z.quot (Qnum q) (Z.pos (Qden q)).

Definition Qlt_bool (a b : Q) : bool := negb (Qle_bool b a).

(** ** Binary64 floats *)

(** A Python float: a finite value, [inf] or [-inf], or a NaN.  The sign of
    a zero is not kept: the program cannot observe it (a comparison ignores
    it, a division by either zero raises, [int] gives 0 for both). *)
Inductive float : Type :=
  | F (q : Q)
  | Inf (negative : bool)
  | NaN.

Definition pow2 (e : Z) : Q := 2 ^ e.

(** For a positive [a], the exponent [e] with [2^e <= a < 2^(e+1)]. *)
Definition log2_floor (a : Q) : Z :=
  let e0 := (Z.log2 (Qnum a) - Z.log2 (Z.pos (Qden a)))%Z in
  if Qle_bool (pow2 e0) a then e0 else (e0 - 1)%Z.

(** The nearest integer, ties to even. *)
Definition round_half_even (m : Q) : Z :=
  let f := Qfloor m in
  match Qcompare (m - inject_Z f) (1 # 2) with
  | Lt => f
  | Gt => (f + 1)%Z
  | Eq => if Z.even f then f else (f + 1)%Z
  end.

(** The exponent of the last bit of a binary64 value near [a]: 53 bits of
    mantissa, and never below [2^-1074], the smallest subnormal. *)
Definition quantum (a : Q) : Z := Z.max (log2_floor a - 52) (-1074).

Definition round_to (ex : Z) (a : Q) : Q :=
  inject_Z (round_half_even (a / pow2 ex)) * pow2 ex.

(** Rounding of a positive number, the exponent unbounded above. *)
Definition round_mag (a : Q) : Q := round_to (quantum a) a.

Definition round_val (q : Q) : Q :=
  match Qcompare q 0 with
  | Eq => 0
  | Gt => round_mag q
  | Lt => - round_mag (- q)
  end.

(** Rounding to binary64, to nearest, ties to even: a result of magnitude
    [2^1024] or more is an infinity. *)
Definition round64 (q : Q) : float :=
  let v := round_val q in
  if Qle_bool (pow2 1024) v then Inf false
  else if Qle_bool v (- pow2 1024) then Inf true
  else F v.

(** [a + b] on floats. *)
Definition fadd (a b : float) : float :=
  match a, b with
  | NaN, _ | _, NaN => NaN
  | Inf s, Inf t => if Bool.eqb s t then Inf s else NaN
  | Inf s, F _ => Inf s
  | F _, Inf t => Inf t
  | F x, F y => round64 (x + y)
  end.

(** [a - b] on floats. *)
Definition fsub (a b : float) : float :=
  match a, b with
  | NaN, _ | _, NaN => NaN
  | Inf s, Inf t => if Bool.eqb s t then NaN else Inf s
  | Inf s, F _ => Inf s
  | F _, Inf t => Inf (negb t)
  | F x, F y => round64 (x - y)
  end.

Definition Qneg (q : Q) : bool := negb (Qle_bool 0 q).

(** The quotient of IEEE 754 for a divisor that is not zero. *)
Definition fdiv (a b : float) : float :=
  match a, b with
  | NaN, _ | _, NaN => NaN
  | Inf _, Inf _ => NaN
  | Inf s, F y => Inf (xorb s (Qneg y))
  | F _, Inf _ => F 0
  | F x, F y => round64 (x / y)
  end.

(** [a / b] on floats: raises [ZeroDivisionError] when [b] is zero. *)
Definition py_div (a b : float) : result float :=
  match b with
  | F y => if Qeq_bool y 0 then Raise ZeroDivisionError else Ok (fdiv a b)
  | _ => Ok (fdiv a b)
  end.

(** [int(x)] on a float: truncation toward zero; [OverflowError] on an
    infinity, [ValueError] on a NaN. *)
Definition py_int_float (x : float) : result Z :=
  match x with
  | F q => Ok (py_int q)
  | Inf _ => Raise OverflowError
  | NaN => Raise ValueError
  end.

(** A rational that is a finite binary64 value. *)
Definition is_float64 (q : Q) : Prop :=
  round_val q == q /\ - pow2 1024 < q /\ q < pow2 1024.

Definition is_float64b (q : Q) : bool :=
  (Qeq_bool (round_val q) q && negb (Qle_bool q (- pow2 1024))
   && negb (Qle_bool (pow2 1024) q))%bool.

(** A float that is not negative: a finite value from 0 on, or [inf]. *)
Definition not_negative (x : float) : Prop :=
  match x with
  | F v => 0 <= v
  | Inf negative => negative = false
  | NaN => False
  end.

(** ** The season table: the JSON document of [data/sekki.json] *)

(** An entry of a term's ["ko"] list. *)
Record Ko : Type := mkKo {
  ko_name : string;
  ko_reading : string;
  ko_emoji : string
}.

(** An entry of the ["sekki"] list; [sekki_longitude] is the key
    ["longitude"], [sekki_ko] the key ["ko"]. *)
Record Sekki : Type := mkSekki {
  sekki_name : string;
  sekki_reading : string;
  sekki_longitude : Q;
  sekki_ko : list Ko
}.

(** The whole document; [data_sekki] is the key ["sekki"]. *)
Record Data : Type := mkData {
  data_sekki : list Sekki
}.

(** ** [load_sekki_data] *)

(** What [open(data_path)] followed by [json.load(f)] finds. *)
Inductive backing : Type :=
  | Missing
  | Malformed
  | Document (d : Data).

Definition load_sekki_data (b : backing) : result Data :=
  match b with
  | Missing => Raise FileNotFoundError
  | Malformed => Raise JSONDecodeError
  | Document d => Ok d
  end.

(** ** [_find_ko_in_sekki] *)

Definition _find_ko_in_sekki (longitude : Q) (sekki : Sekki) (next_sekki_lon : Q)
  : result (Sekki * Ko * Z) :=
  let sekki_lon := sekki_longitude sekki in
  let '(span, offset) :=
    if Qlt_bool next_sekki_lon sekki_lon then
      (fadd (fsub (F 360) (F sekki_lon)) (F next_sekki_lon),
       if Qle_bool sekki_lon longitude
       then fsub (F longitude) (F sekki_lon)
       else fadd (fsub (F 360) (F sekki_lon)) (F longitude))
    else
      (fsub (F next_sekki_lon) (F sekki_lon),
       fsub (F longitude) (F sekki_lon)) in
  ko_span <- py_div span (F 3) ;;
  quotient <- py_div offset ko_span ;;
  n <- py_int_float quotient ;;
  let ko_index := Z.min n 2 in
  k <- py_index (sekki_ko sekki) ko_index ;;
  Ok (sekki, k, ko_index).

(** ** [find_current_ko] *)

(** The [for i, sekki in enumerate(sekki_list)] loop, from position [i] on:
    [Ok (Some r)] when the body returns [r], [Ok None] when the loop runs to
    its end. *)
Fixpoint find_loop (longitude : Q) (sekki_list : list Sekki) (i : nat)
    (rest : list Sekki) : result (option (Sekki * Ko * Z)) :=
  match rest with
  | [] => Ok None
  | sekki :: rest' =>
    let sekki_lon := sekki_longitude sekki in
    next_sekki <- py_index sekki_list ((Z.of_nat i + 1) mod 24)%Z ;;
    let next_lon := sekki_longitude next_sekki in
    if Qlt_bool next_lon sekki_lon then
      if (Qle_bool sekki_lon longitude || Qlt_bool longitude next_lon)%bool then
        r <- _find_ko_in_sekki longitude sekki next_lon ;; Ok (Some r)
      else find_loop longitude sekki_list (S i) rest'
    else
      if (Qle_bool sekki_lon longitude && Qlt_bool longitude next_lon)%bool then
        r <- _find_ko_in_sekki longitude sekki next_lon ;; Ok (Some r)
      else find_loop longitude sekki_list (S i) rest'
  end.

Definition find_current_ko (longitude : Q) (data : Data)
  : result (Sekki * Ko * Z) :=
  let sekki_list := data_sekki data in
  found <- find_loop longitude sekki_list 0 sekki_list ;;
  match found with
  | Some r => Ok r
  | None =>
    s0 <- py_index sekki_list 0 ;;
    k0 <- py_index (sekki_ko s0) 0 ;;
    Ok (s0, k0, 0%Z)
  end.

(** ** [format_message] *)

(** The fields of a [datetime] that [strftime("%Y/%m/%d")] reads. *)
Record datetime : Type := mkDatetime {
  year : nat;
  month : nat;
  day : nat
}.

Definition digit (n : nat) : ascii := ascii_of_nat (48 + n mod 10).

(** [%m] and [%d]: two digits, zero padded. *)
Definition two_digits (n : nat) : string :=
  String (digit (n / 10)) (String (digit n) EmptyString).

(** [%Y]: four digits, zero padded (a [datetime] year is in 1..9999). *)
Definition four_digits (n : nat) : string :=
  (two_digits (n / 100) ++ two_digits n)%string.

Definition strftime_Ymd (date : datetime) : string :=
  (four_digits (year date) ++ "/" ++ two_digits (month date) ++ "/"
   ++ two_digits (day date))%string.

Definition newline : string := String (ascii_of_nat 10) EmptyString.

Definition ko_names : list string := ["初候"; "次候"; "末候"]%string.

Definition format_message (date : datetime) (sekki : Sekki) (ko : Ko)
    (ko_index : Z) : result string :=
  let date_str := strftime_Ymd date in
  label <- py_index ko_names ko_index ;;
  Ok ("*" ++ date_str ++ " dev-daily* " ++ ko_emoji ko ++ newline ++ "> "
      ++ sekki_name sekki ++ "・" ++ label ++ "「" ++ ko_name ko ++ "」（"
      ++ ko_reading ko ++ "）")%string.

(** ** [post_to_slack] *)

Definition ICON_URL : string :=
  "https://raw.githubusercontent.com/carrotRakko/koyomi-bot/main/assets/icon.png".
Definition BOT_NAME : string := "暦ぼっと".

(** The arguments of the [requests.post] call. *)
Record slack_request : Type := mkRequest {
  req_url : string;
  req_text : string;
  req_username : string;
  req_icon_url : string;
  req_timeout : Z
}.

(** What [requests.post] does with a request: it returns a response, of which
    the program reads [status_code], or it raises; every exception of
    [requests] derives from [Exception], and [e] is its text. *)
Inductive post_outcome : Type :=
  | Response (status_code : Z)
  | PostRaised (e : string).

(** [post_to_slack] in a world [requests_post]; the second component is what
    it prints. *)
Definition post_to_slack (requests_post : slack_request -> post_outcome)
    (message webhook_url : string) : bool * list string :=
  match requests_post (mkRequest webhook_url message BOT_NAME ICON_URL 10) with
  | Response status_code => ((status_code =? 200)%Z, [])
  | PostRaised e => (false, ["Slack 投稿エラー: " ++ e]%string)
  end.

(** ** Well-formed tables (the data model of the season table) *)

Definition dummy_sekki : Sekki := mkSekki "" "" 0 [].

(** [startLongitude[i]]. *)
Definition lon_at (data : Data) (i : nat) : Q :=
  sekki_longitude (nth i (data_sekki data) dummy_sekki).

(** [startLongitude[(i+1) mod 24]]. *)
Definition next_lon_at (data : Data) (i : nat) : Q :=
  lon_at data ((i + 1) mod 24).

(** The pair [(i, (i+1) mod 24)] is a wrapping pair. *)
Definition wraps (data : Data) (i : nat) : bool :=
  Qlt_bool (next_lon_at data i) (lon_at data i).

(** The range condition of a term starting at [lon] whose successor starts at
    [next_lon] (lines 58-64). *)
Definition in_range (lon next_lon longitude : Q) : bool :=
  if Qlt_bool next_lon lon
  then (Qle_bool lon longitude || Qlt_bool longitude next_lon)%bool
  else (Qle_bool lon longitude && Qlt_bool longitude next_lon)%bool.

(** The range condition of term [i] holds at [longitude]. *)
Definition active (data : Data) (longitude : Q) (i : nat) : bool :=
  in_range (lon_at data i) (next_lon_at data i) longitude.

Definition count (f : nat -> bool) (n : nat) : nat :=
  List.length (filter f (seq 0 n)).

Definition count_wraps (data : Data) : nat := count (wraps data) 24.

(** A start longitude: a binary64 value in [0,360). *)
Definition lon_ok (q : Q) : Prop := is_float64 q /\ 0 <= q /\ q < 360.

Definition sekki_ok (s : Sekki) : Prop :=
  lon_ok (sekki_longitude s) /\ List.length (sekki_ko s) = 3%nat.

(** The invariants of the data model: 24 terms, each with a start longitude in
    [0,360) and exactly 3 micro-seasons, and exactly one wrapping pair among
    the 24 cyclically adjacent pairs. *)
Definition well_formed (data : Data) : Prop :=
  List.length (data_sekki data) = 24%nat
  /\ Forall sekki_ok (data_sekki data)
  /\ count_wraps data = 1%nat.

Definition sekki_okb (s : Sekki) : bool :=
  (is_float64b (sekki_longitude s)
   && Qle_bool 0 (sekki_longitude s) && Qlt_bool (sekki_longitude s) 360
   && (List.length (sekki_ko s) =? 3)%nat)%bool.

Definition well_formedb (data : Data) : bool :=
  ((List.length (data_sekki data) =? 24)%nat
   && forallb sekki_okb (data_sekki data)
   && (count_wraps data =? 1)%nat)%bool.

(** ** A table of the shape of [data/sekki.json] *)

Definition sample_ko (i k : nat) : Ko :=
  mkKo (String (ascii_of_nat (65 + i)) (String (ascii_of_nat (49 + k)) EmptyString))
       (String (ascii_of_nat (97 + i)) (String (ascii_of_nat (49 + k)) EmptyString))
       (String (ascii_of_nat (42 + k)) EmptyString).

Definition sample_names : list string :=
  ["立春"; "雨水"; "啓蟄"; "春分"; "清明"; "穀雨"; "立夏"; "小満"; "芒種"; "夏至";
   "小暑"; "大暑"; "立秋"; "処暑"; "白露"; "秋分"; "寒露"; "霜降"; "立冬"; "小雪";
   "大雪"; "冬至"; "小寒"; "大寒"]%string.

(** Term [i] starts at [(315 + 15 i) mod 360] degrees: 立春 at 315, ...,
    啓蟄 at 345, 春分 at 0, ..., 大寒 at 300. *)
Definition sample_sekki (i : nat) : Sekki :=
  mkSekki (nth i sample_names ""%string)
          (String (ascii_of_nat (97 + i)) EmptyString)
          (inject_Z ((315 + 15 * Z.of_nat i) mod 360))
          [sample_ko i 0; sample_ko i 1; sample_ko i 2].

Definition sample_data : Data := mkData (map sample_sekki (seq 0 24)).

(** ** Other tables *)

(** [data] with the start longitude of term [i] replaced by [q]. *)
Definition set_lon (i : nat) (q : Q) (data : Data) : Data :=
  mkData (map (fun p : nat * Sekki =>
                 if (fst p =? i)%nat
                 then mkSekki (sekki_name (snd p)) (sekki_reading (snd p)) q
                              (sekki_ko (snd p))
                 else snd p)
              (combine (seq 0 (List.length (data_sekki data))) (data_sekki data))).

(** A table of 24 terms that all start at 0: no pair wraps and no term's
    range condition can hold. *)
Definition flat_data : Data :=
  mkData (map (fun i => mkSekki (nth i sample_names ""%string) ""%string 0
                          [sample_ko i 0; sample_ko i 1; sample_ko i 2])
              (seq 0 24)).

(** The first 23 terms of the sample table. *)
Definition short_data : Data := mkData (map sample_sekki (seq 0 23)).

(** The sample table with the last micro-season of its first term removed. *)
Definition two_ko_data : Data :=
  mkData (mkSekki "立春" "a" 315 [sample_ko 0 0; sample_ko 0 1]
          :: map sample_sekki (seq 1 23)).

(** The sample table with term 4 starting at [2^-1074], the smallest
    positive float (5e-324): the start longitudes are 315, 330, 345, 0,
    5e-324, 30, ..., so that term 3 is the range from 0 to 5e-324. *)
Definition tiny_span_data : Data := set_lon 4 (pow2 (-1074)) sample_data.

(** The float 0.3333333333333333, the binary64 value nearest to 1/3 (and
    below it). *)
Definition below_third : Q := 6004799503160661 # 18014398509481984.

(** The largest float, 1.7976931348623157e308. *)
Definition max_float : Q := inject_Z (2 ^ 53 - 1) * pow2 971.

(** The sample table with term 2 starting at 358: the wrapping term is the
    range from 358 to 0. *)
Definition wrap_358_data : Data := set_lon 2 358 sample_data.

(** The sample table with term 2 starting at 359 and term 3 at 1: the
    wrapping term is the range from 359 to 1. *)
Definition wrap_359_data : Data := set_lon 2 359 (set_lon 3 1 sample_data).

(** ** Notions used in the statements *)

(** The span of a term that starts at [lon] and whose successor starts at
    [next_lon]: [next_lon - lon], or [(360 - lon) + next_lon] for the
    wrapping term, in binary64. *)
Definition term_span (lon next_lon : Q) : float :=
  if Qlt_bool next_lon lon
  then fadd (fsub (F 360) (F lon)) (F next_lon)
  else fsub (F next_lon) (F lon).

(** The offset of [longitude] in that term: [longitude - lon], or
    [(360 - lon) + longitude] in the wrapping term below its start, in
    binary64. *)
Definition term_offset (longitude lon next_lon : Q) : float :=
  if Qlt_bool next_lon lon
  then if Qle_bool lon longitude
       then fsub (F longitude) (F lon)
       else fadd (fsub (F 360) (F lon)) (F longitude)
  else fsub (F longitude) (F lon).

(** [q % 360] on floats, as CPython computes it: the remainder of [fmod],
    which is exact and has the sign of [q], and [360] added to it (a float
    addition) when it is negative. *)
Definition py_mod_360 (q : Q) : float :=
  let r := q - 360 * inject_Z (py_int (q / 360)) in
  if Qlt_bool r 0 then fadd (F r) (F 360) else F r.

(** [1] for [true], [0] for [false]. *)
Definition b2n (b : bool) : nat := if b then 1%nat else 0%nat.

(** [1] when [q <= longitude], else [0]. *)
Definition below (longitude q : Q) : nat := b2n (Qle_bool q longitude).

(** No term of [data] is active at [longitude]. *)
Definition no_match (data : Data) (longitude : Q) : Prop :=
  forall j, (j < 24)%nat -> active data longitude j = false.

(** [no_match], as a test. *)
Definition no_matchb (data : Data) (longitude : Q) : bool :=
  forallb (fun j => negb (active data longitude j)) (seq 0 24).

(** [find_current_ko] returns term [i] of [data]. *)
Definition selects (data : Data) (longitude : Q) (i : nat) : Prop :=
  exists (k : Ko) (ko_index : Z),
    find_current_ko longitude data
    = Ok (nth i (data_sekki data) dummy_sekki, k, ko_index).

(** [sub] occurs in [s]. *)
Definition contains (s sub : string) : Prop :=
  exists pre post : string, s = (pre ++ sub ++ post)%string.

(** ** [main] *)

(** What [get_sun_longitude] does for a date: it returns the longitude in
    degrees, or the ephemeris library raises; [e] is the text of the
    exception. *)
Inductive sun_outcome : Type :=
  | SunLongitude (degrees : Q)
  | SunRaised (e : string).

(** What [main] meets when it runs: the clock, the data file, the ephemeris,
    the environment variable [SLACK_WEBHOOK_URL] and the HTTP endpoint. *)
Record world : Type := mkWorld {
  w_now : datetime;
  w_sekki_json : backing;
  w_sun_longitude : datetime -> sun_outcome;
  w_webhook_url : option string;
  w_requests_post : slack_request -> post_outcome
}.

(** An exception that leaves [main]: one of the program's own, or one of the
    ephemeris library. *)
Inductive raised : Type :=
  | Core (e : exn)
  | Provider (e : string).

Inductive exit : Type :=
  | Returned
  | Propagated (e : raised).

(** [if webhook_url:] holds for a variable that is set and not empty. *)
Definition truthy (v : option string) : bool :=
  match v with
  | Some (String _ _) => true
  | _ => false
  end.

(** [main]: the lines it prints, one entry for each [print], and how it
    ends.  [str_datetime] is [str(now)] and [format_2f] is the format
    [{longitude:.2f}]. *)
Definition main (str_datetime : datetime -> string) (format_2f : Q -> string)
    (w : world) : list string * exit :=
  let now := w_now w in
  match load_sekki_data (w_sekki_json w) with
  | Raise e => ([], Propagated (Core e))
  | Ok data =>
    match w_sun_longitude w now with
    | SunRaised e => ([], Propagated (Provider e))
    | SunLongitude longitude =>
      let out1 := ["日時: " ++ str_datetime now;
                   "太陽黄経: " ++ format_2f longitude ++ "°"]%string in
      match find_current_ko longitude data with
      | Raise e => (out1, Propagated (Core e))
      | Ok (sekki, ko, ko_index) =>
        let out2 :=
          out1 ++ ["節気: " ++ sekki_name sekki ++ "（" ++ sekki_reading sekki ++ "）";
                   "候: " ++ ko_name ko ++ "（" ++ ko_reading ko ++ "）";
                   "絵文字: " ++ ko_emoji ko]%string in
        match format_message now sekki ko ko_index with
        | Raise e => (out2, Propagated (Core e))
        | Ok message =>
          let out3 :=
            out2 ++ [newline ++ "投稿メッセージ:" ++ newline ++ message]%string in
          match w_webhook_url w with
          | Some webhook_url =>
            if truthy (Some webhook_url) then
              let (success, printed) :=
                post_to_slack (w_requests_post w) message webhook_url in
              (out3 ++ printed
               ++ [newline ++ "Slack 投稿: "
                   ++ (if success then "成功" else "失敗")]%string,
               Returned)
            else
              (out3 ++ [newline ++ "SLACK_WEBHOOK_URL が設定されていないため、投稿をスキップ"]%string,
               Returned)
          | None =>
            (out3 ++ [newline ++ "SLACK_WEBHOOK_URL が設定されていないため、投稿をスキップ"]%string,
             Returned)
          end
        end
      end
    end
  end.

(** The last line that [main] prints: delivery skipped, succeeded, failed. *)
Definition skip_line : string :=
  (newline ++ "SLACK_WEBHOOK_URL が設定されていないため、投稿をスキップ")%string.
Definition success_line : string := (newline ++ "Slack 投稿: 成功")%string.
Definition failure_line : string := (newline ++ "Slack 投稿: 失敗")%string.

(** A world for the examples: the sample table, a spring day, the sun at
    5 degrees, a webhook and an endpoint that answers 200. *)
Definition sample_world : world :=
  mkWorld (mkDatetime 2025 3 25) (Document sample_data)
          (fun _ => SunLongitude 5) (Some "https://hooks.example/T"%string)
          (fun _ => Response 200).

(** The same world with [SLACK_WEBHOOK_URL] set to the empty string. *)
Definition quiet_world : world :=
  mkWorld (mkDatetime 2025 3 25) (Document sample_data)
          (fun _ => SunLongitude 5) (Some ""%string)
          (fun _ => Response 200).

(** The sample table with a fourth micro-season added to every term. *)
Definition four_ko_data : Data :=
  mkData (map (fun s => mkSekki (sekki_name s) (sekki_reading s)
                                (sekki_longitude s)
                                (sekki_ko s ++ [sample_ko 0 3]))
              (data_sekki sample_data)).


(** * Properties *)

(** ** Powers of two and the binary logarithm *)

Lemma pow2_pos (e : Z) : 0 < pow2 e.
Proof. apply Qpower_0_lt. reflexivity. Qed.

Lemma pow2_add (a b : Z) : pow2 (a + b) == pow2 a * pow2 b.
Proof. apply Qpower_plus. discriminate. Qed.

Lemma pow2_le (a b : Z) : (a <= b)%Z -> pow2 a <= pow2 b.
Proof. intro H. apply Qpower_le_compat_l; [exact H|]. discriminate. Qed.

Lemma pow2_lt (a b : Z) : (a < b)%Z -> pow2 a < pow2 b.
Proof. intro H. apply Qpower_lt_compat_l; [exact H|]. reflexivity. Qed.

Lemma pow2_lt_inv (a b : Z) : pow2 a < pow2 b -> (a < b)%Z.
Proof.
  intro H. destruct (Z_lt_le_dec a b) as [|Hle]; [assumption|].
  apply pow2_le in Hle. lra.
Qed.

Lemma pow2_nonneg (e : Z) : (0 <= e)%Z -> pow2 e == inject_Z (2 ^ e).
Proof. intro H. unfold pow2. rewrite Zpower_Qpower by exact H. reflexivity. Qed.

Lemma pow2_sub (a b : Z) : pow2 (a - b) == pow2 a / pow2 b.
Proof.
  unfold Z.sub. rewrite pow2_add. unfold pow2 at 2. rewrite Qpower_opp.
  reflexivity.
Qed.

(** ** [log2_floor] *)

Lemma div_lt_div (n d x y : Q) :
  0 < d -> 0 < y -> n * y < x * d -> n / d < x / y.
Proof.
  intros Hd Hy H.
  apply Qlt_shift_div_r; [exact Hd|].
  assert (E : x / y * d == (x * d) / y) by (field; lra).
  rewrite E. apply Qlt_shift_div_l; assumption.
Qed.

Lemma div_le_div (n d x y : Q) :
  0 < d -> 0 < y -> n * y <= x * d -> n / d <= x / y.
Proof.
  intros Hd Hy H.
  apply Qle_shift_div_r; [exact Hd|].
  assert (E : x / y * d == (x * d) / y) by (field; lra).
  rewrite E. apply Qle_shift_div_l; assumption.
Qed.

Lemma Z_log2_bounds (n : Z) :
  (0 < n)%Z ->
  pow2 (Z.log2 n) <= inject_Z n /\ inject_Z n < pow2 (Z.log2 n + 1).
Proof.
  intro H. destruct (Z.log2_spec n H) as [L U].
  pose proof (Z.log2_nonneg n) as P.
  rewrite !pow2_nonneg by lia. split.
  - rewrite <- Zle_Qle. exact L.
  - rewrite <- Zlt_Qlt. replace (Z.log2 n + 1)%Z with (Z.succ (Z.log2 n)) by lia.
    exact U.
Qed.

Lemma log2_floor_spec (a : Q) :
  0 < a -> pow2 (log2_floor a) <= a /\ a < pow2 (log2_floor a + 1).
Proof.
  intro Ha. destruct a as [n d].
  assert (Hn : (0 < n)%Z) by (unfold Qlt in Ha; simpl in Ha; lia).
  destruct (Z_log2_bounds n Hn) as [Ln Un].
  destruct (Z_log2_bounds (Z.pos d) ltac:(lia)) as [Ld Ud].
  assert (E : n # d == inject_Z n / inject_Z (Z.pos d)) by apply Qmake_Qdiv.
  assert (Dpos : 0 < inject_Z (Z.pos d)) by reflexivity.
  assert (Npos : 0 < inject_Z n) by (change (inject_Z 0 < inject_Z n); rewrite <- Zlt_Qlt; exact Hn).
  unfold log2_floor. simpl Qnum. simpl Qden.
  set (ln := Z.log2 n) in *. set (ld := Z.log2 (Z.pos d)) in *.
  pose proof (pow2_pos ln). pose proof (pow2_pos ld).
  pose proof (pow2_pos (ln + 1)). pose proof (pow2_pos (ld + 1)).
  assert (Up : n # d < pow2 (ln - ld + 1)).
  { replace (ln - ld + 1)%Z with ((ln + 1) - ld)%Z by lia.
    rewrite pow2_sub, E. apply div_lt_div; trivial.
    apply Qle_lt_trans with (inject_Z n * inject_Z (Z.pos d)).
    - apply (proj2 (Qmult_le_l _ _ _ Npos)). exact Ld.
    - apply Qmult_lt_compat_r; assumption. }
  assert (Lo : pow2 (ln - ld - 1) <= n # d).
  { replace (ln - ld - 1)%Z with (ln - (ld + 1))%Z by lia.
    rewrite pow2_sub, E. apply div_le_div; trivial.
    apply Qle_trans with (inject_Z n * inject_Z (Z.pos d)).
    - apply Qmult_le_compat_r; [exact Ln|]. apply Qlt_le_weak. exact Dpos.
    - apply (proj2 (Qmult_le_l _ _ _ Npos)).
      apply Qlt_le_weak. exact Ud. }
  destruct (Qle_bool (pow2 (ln - ld)) (n # d)) eqn:T.
  - apply Qle_bool_iff in T. split; assumption.
  - split; [exact Lo|].
    replace (ln - ld - 1 + 1)%Z with (ln - ld)%Z by lia.
    apply Qnot_le_lt. intro C. apply Qle_bool_iff in C. congruence.
Qed.

Lemma log2_floor_unique (a : Q) (e : Z) :
  pow2 e <= a -> a < pow2 (e + 1) -> log2_floor a = e.
Proof.
  intros L U.
  assert (Ha : 0 < a) by (pose proof (pow2_pos e); lra).
  destruct (log2_floor_spec a Ha) as [L' U'].
  assert (A : (e < log2_floor a + 1)%Z) by (apply pow2_lt_inv; lra).
  assert (B : (log2_floor a < e + 1)%Z) by (apply pow2_lt_inv; lra).
  lia.
Qed.

Lemma log2_floor_mono (a b : Q) :
  0 < a -> a <= b -> (log2_floor a <= log2_floor b)%Z.
Proof.
  intros Ha Hab.
  destruct (log2_floor_spec a Ha) as [La Ua].
  destruct (log2_floor_spec b ltac:(lra)) as [Lb Ub].
  assert (A : (log2_floor a < log2_floor b + 1)%Z) by (apply pow2_lt_inv; lra).
  lia.
Qed.

Lemma log2_floor_proper (a b : Q) : 0 < a -> a == b -> log2_floor a = log2_floor b.
Proof.
  intros Ha E. destruct (log2_floor_spec a Ha) as [L U].
  symmetry. apply log2_floor_unique; rewrite <- E; assumption.
Qed.

(** ** Rounding to the nearest integer *)

Lemma rhe_cases (m : Q) :
  let f := Qfloor m in
  let r := m - inject_Z f in
  0 <= r /\ r < 1 /\
  ((round_half_even m = f /\ r <= 1 # 2 /\ (r == 1 # 2 -> Z.even f = true))
   \/ (round_half_even m = (f + 1)%Z /\ 1 # 2 <= r
       /\ (r == 1 # 2 -> Z.even f = false))).
Proof.
  intros f r.
  pose proof (Qfloor_le m) as L. pose proof (Qlt_floor m) as U.
  fold f in L, U. rewrite inject_Z_plus in U. change (inject_Z 1) with 1 in U.
  assert (R0 : 0 <= r) by (unfold r; lra).
  assert (R1 : r < 1) by (unfold r; lra).
  split; [exact R0|]. split; [exact R1|].
  unfold round_half_even. fold f. fold r.
  destruct (Qcompare r (1 # 2)) eqn:C.
  - apply Qeq_alt in C. destruct (Z.even f) eqn:P.
    + left. split; [reflexivity|]. split; [lra|]. intros _. reflexivity.
    + right. split; [reflexivity|]. split; [lra|]. intros _. reflexivity.
  - apply Qlt_alt in C. left. split; [reflexivity|]. split; [lra|].
    intro E. lra.
  - apply Qgt_alt in C. right. split; [reflexivity|]. split; [lra|].
    intro E. lra.
Qed.

Lemma rhe_bounds (m : Q) :
  m - (1 # 2) <= inject_Z (round_half_even m)
  /\ inject_Z (round_half_even m) <= m + (1 # 2).
Proof.
  destruct (rhe_cases m) as (R0 & R1 & [(E & H & _)|(E & H & _)]);
    rewrite E; rewrite ?inject_Z_plus; change (inject_Z 1) with 1; split; lra.
Qed.

Lemma rhe_mono (m1 m2 : Q) :
  m1 <= m2 -> (round_half_even m1 <= round_half_even m2)%Z.
Proof.
  intro H.
  pose proof (Qfloor_resp_le _ _ H) as Hf.
  destruct (rhe_cases m1) as (A0 & A1 & A).
  destruct (rhe_cases m2) as (B0 & B1 & B).
  destruct (Z.eq_dec (Qfloor m1) (Qfloor m2)) as [E|NE].
  - rewrite <- E in B0, B1, B.
    destruct A as [(Ea & Ha & Pa)|(Ea & Ha & Pa)];
      destruct B as [(Eb & Hb & Pb)|(Eb & Hb & Pb)];
      rewrite Ea, Eb; try lia.
    exfalso.
    assert (X : m1 - inject_Z (Qfloor m1) == 1 # 2) by lra.
    assert (Y : m2 - inject_Z (Qfloor m1) == 1 # 2) by lra.
    rewrite (Pa X) in Pb. specialize (Pb Y). discriminate.
  - destruct A as [(Ea & _)|(Ea & _)]; destruct B as [(Eb & _)|(Eb & _)];
      rewrite Ea, Eb; lia.
Qed.

Lemma rhe_proper (m1 m2 : Q) : m1 == m2 -> round_half_even m1 = round_half_even m2.
Proof.
  intro E. unfold round_half_even.
  rewrite (Qfloor_comp _ _ E).
  assert (C : Qcompare (m1 - inject_Z (Qfloor m2)) (1 # 2)
              = Qcompare (m2 - inject_Z (Qfloor m2)) (1 # 2))
    by (rewrite E; reflexivity).
  rewrite C. reflexivity.
Qed.

Lemma rhe_int (z : Z) : round_half_even (inject_Z z) = z.
Proof.
  unfold round_half_even. rewrite Qfloor_Z.
  assert (C : Qcompare (inject_Z z - inject_Z z) (1 # 2) = Lt)
    by (apply (proj1 (Qlt_alt _ _)); lra).
  rewrite C. reflexivity.
Qed.

Lemma rhe_nonneg (m : Q) : 0 <= m -> (0 <= round_half_even m)%Z.
Proof.
  intro H. change 0%Z with (round_half_even (inject_Z 0)) at 1.
  - apply rhe_mono. exact H.
Qed.

(** ** Rounding to a multiple of a quantum *)

Lemma round_to_mono (ex : Z) (a b : Q) : a <= b -> round_to ex a <= round_to ex b.
Proof.
  intro H. unfold round_to. pose proof (pow2_pos ex) as P.
  apply Qmult_le_compat_r; [|lra].
  rewrite <- Zle_Qle. apply rhe_mono.
  apply Qmult_le_compat_r; [exact H|].
  apply Qlt_le_weak. apply Qinv_lt_0_compat. exact P.
Qed.

Lemma round_to_proper (ex : Z) (a b : Q) : a == b -> round_to ex a == round_to ex b.
Proof.
  intro E. unfold round_to.
  rewrite (rhe_proper (a / pow2 ex) (b / pow2 ex)) by (rewrite E; reflexivity).
  reflexivity.
Qed.

(** A multiple of the quantum is kept. *)
Lemma round_to_grid (ex : Z) (k : Z) (a : Q) :
  a == inject_Z k * pow2 ex -> round_to ex a == a.
Proof.
  intro E. unfold round_to. pose proof (pow2_pos ex) as P.
  rewrite (rhe_proper (a / pow2 ex) (inject_Z k)).
  - rewrite rhe_int. rewrite E. reflexivity.
  - rewrite E. field. lra.
Qed.

Lemma round_to_pow2 (ex e : Z) : (ex <= e)%Z -> round_to ex (pow2 e) == pow2 e.
Proof.
  intro H. apply (round_to_grid ex (2 ^ (e - ex))).
  rewrite <- pow2_nonneg by lia. rewrite <- pow2_add.
  replace (e - ex + ex)%Z with e by lia. reflexivity.
Qed.

Lemma round_to_nonneg (ex : Z) (a : Q) : 0 <= a -> 0 <= round_to ex a.
Proof.
  intro H. unfold round_to. pose proof (pow2_pos ex) as P.
  apply Qmult_le_0_compat; [|lra].
  change 0 with (inject_Z 0). rewrite <- Zle_Qle. apply rhe_nonneg.
  apply Qle_shift_div_l; [exact P|]. lra.
Qed.

(** ** Rounding a positive number *)

Lemma quantum_ge (a : Q) : (-1074 <= quantum a)%Z.
Proof. unfold quantum. lia. Qed.

Lemma quantum_mono (a b : Q) : 0 < a -> a <= b -> (quantum a <= quantum b)%Z.
Proof.
  intros Ha Hab. unfold quantum.
  pose proof (log2_floor_mono a b Ha Hab). lia.
Qed.

Lemma quantum_proper (a b : Q) : 0 < a -> a == b -> quantum a = quantum b.
Proof.
  intros Ha E. unfold quantum. rewrite (log2_floor_proper a b Ha E). reflexivity.
Qed.

Lemma round_mag_proper (a b : Q) : 0 < a -> a == b -> round_mag a == round_mag b.
Proof.
  intros Ha E. unfold round_mag. rewrite (quantum_proper a b Ha E).
  apply round_to_proper. exact E.
Qed.

Lemma round_mag_nonneg (a : Q) : 0 <= a -> 0 <= round_mag a.
Proof. intro H. apply round_to_nonneg. exact H. Qed.

Lemma round_mag_mono (a b : Q) : 0 < a -> a <= b -> round_mag a <= round_mag b.
Proof.
  intros Ha Hab. assert (Hb : 0 < b) by lra.
  unfold round_mag.
  pose proof (quantum_mono a b Ha Hab) as Q.
  destruct (Z.eq_dec (quantum a) (quantum b)) as [E|NE].
  - rewrite E. apply round_to_mono. exact Hab.
  - destruct (log2_floor_spec a Ha) as [La Ua].
    destruct (log2_floor_spec b Hb) as [Lb Ub].
    assert (Eb : quantum b = (log2_floor b - 52)%Z) by (unfold quantum in *; lia).
    assert (Lt : (log2_floor a + 1 <= log2_floor b)%Z) by (unfold quantum in *; lia).
    pose proof (pow2_le _ _ Lt) as P.
    apply Qle_trans with (pow2 (log2_floor b)).
    + rewrite <- (round_to_pow2 (quantum a) (log2_floor b)) by (unfold quantum in *; lia).
      apply round_to_mono. lra.
    + rewrite <- (round_to_pow2 (quantum b) (log2_floor b)) at 1 by lia.
      apply round_to_mono. exact Lb.
Qed.

(** A rounded value that is not zero is at least half of the exact one. *)
Lemma round_mag_half (a : Q) :
  0 < a -> ~ round_mag a == 0 -> (1 # 2) * a <= round_mag a.
Proof.
  intros Ha NZ. unfold round_mag, round_to in *.
  set (ex := quantum a) in *. pose proof (pow2_pos ex) as P.
  set (m := a / pow2 ex) in *.
  assert (Hm : 0 < m) by (apply Qlt_shift_div_l; lra).
  assert (Ea : a == m * pow2 ex) by (unfold m; field; lra).
  pose proof (rhe_nonneg m ltac:(lra)) as K0.
  destruct (rhe_bounds m) as [L _].
  assert (K1 : (1 <= round_half_even m)%Z).
  { destruct (Z.eq_dec (round_half_even m) 0) as [Z0|]; [|lia].
    exfalso. apply NZ. rewrite Z0. ring. }
  assert (K1q : 1 <= inject_Z (round_half_even m))
    by (change 1 with (inject_Z 1); rewrite <- Zle_Qle; exact K1).
  assert (Hk : (1 # 2) * m <= inject_Z (round_half_even m)).
  { destruct (Qlt_le_dec m 2); lra. }
  assert (R : (1 # 2) * a == (1 # 2) * m * pow2 ex) by (unfold m; field; lra).
  rewrite R. apply Qmult_le_compat_r; lra.
Qed.

Lemma quantum_le (a : Q) : pow2 (-1074) <= a -> pow2 (quantum a) <= a.
Proof.
  intro H. assert (Ha : 0 < a) by (pose proof (pow2_pos (-1074)); lra).
  destruct (log2_floor_spec a Ha) as [L _].
  unfold quantum. destruct (Z.max_spec (log2_floor a - 52) (-1074)) as [[_ ->]|[_ ->]].
  - exact H.
  - apply Qle_trans with (pow2 (log2_floor a)); [|exact L].
    apply pow2_le. lia.
Qed.

(** From the smallest subnormal on, rounding adds at most a half. *)
Lemma round_mag_upper (a : Q) :
  pow2 (-1074) <= a -> round_mag a <= (3 # 2) * a.
Proof.
  intro H. assert (Ha : 0 < a) by (pose proof (pow2_pos (-1074)); lra).
  pose proof (quantum_le a H) as Hq.
  unfold round_mag, round_to. set (ex := quantum a) in *.
  pose proof (pow2_pos ex) as P. set (m := a / pow2 ex).
  assert (Ea : a == m * pow2 ex) by (unfold m; field; lra).
  assert (Hm : 1 <= m) by (apply Qle_shift_div_l; lra).
  destruct (rhe_bounds m) as [_ U].
  assert (R : (3 # 2) * a == (3 # 2) * m * pow2 ex) by (unfold m; field; lra).
  rewrite R. apply Qmult_le_compat_r; lra.
Qed.

Lemma round_mag_lower (a : Q) :
  pow2 (-1074) <= a -> (1 # 2) * a <= round_mag a.
Proof.
  intro H. assert (Ha : 0 < a) by (pose proof (pow2_pos (-1074)); lra).
  pose proof (quantum_le a H) as Hq.
  unfold round_mag, round_to. set (ex := quantum a) in *.
  pose proof (pow2_pos ex) as P. set (m := a / pow2 ex).
  assert (Ea : a == m * pow2 ex) by (unfold m; field; lra).
  assert (Hm : 1 <= m) by (apply Qle_shift_div_l; lra).
  destruct (rhe_bounds m) as [L _].
  assert (R : (1 # 2) * a == (1 # 2) * m * pow2 ex) by (unfold m; field; lra).
  rewrite R. apply Qmult_le_compat_r; lra.
Qed.

(** The result of rounding is a multiple [k * 2^quantum] with
    [0 <= k <= 2^53]. *)
Lemma round_mag_grid (a : Q) :
  0 < a ->
  exists k : Z, (0 <= k <= 2 ^ 53)%Z
                /\ round_mag a == inject_Z k * pow2 (quantum a).
Proof.
  intro Ha. exists (round_half_even (a / pow2 (quantum a))).
  split; [|reflexivity].
  pose proof (pow2_pos (quantum a)) as P.
  destruct (log2_floor_spec a Ha) as [_ U].
  split.
  - apply rhe_nonneg. apply Qle_shift_div_l; lra.
  - rewrite <- (rhe_int (2 ^ 53)). apply rhe_mono.
    rewrite <- pow2_nonneg by lia.
    apply Qle_shift_div_r; [exact P|]. rewrite <- pow2_add.
    apply Qle_trans with (pow2 (log2_floor a + 1)); [lra|].
    apply pow2_le. unfold quantum. lia.
Qed.

(** A value [k * 2^e] with [0 < k <= 2^53] and [e >= -1074] is kept. *)
Lemma round_mag_float (k e : Z) :
  (0 < k <= 2 ^ 53)%Z -> (-1074 <= e)%Z ->
  round_mag (inject_Z k * pow2 e) == inject_Z k * pow2 e.
Proof.
  intros Hk He. set (v := inject_Z k * pow2 e).
  pose proof (pow2_pos e) as P.
  assert (Kq : 0 < inject_Z k)
    by (change 0 with (inject_Z 0); rewrite <- Zlt_Qlt; lia).
  assert (Hv : 0 < v) by (unfold v; apply Qmult_lt_0_compat; assumption).
  destruct (log2_floor_spec v Hv) as [L U].
  assert (Vle : v <= pow2 (e + 53)).
  { unfold v. rewrite Z.add_comm, pow2_add.
    apply Qmult_le_compat_r; [|lra].
    rewrite pow2_nonneg by lia. rewrite <- Zle_Qle. lia. }
  assert (Lle : (log2_floor v <= e + 53)%Z).
  { destruct (Z_le_gt_dec (log2_floor v) (e + 53)) as [|G]; [assumption|].
    assert (pow2 (e + 53) < pow2 (log2_floor v)) by (apply pow2_lt; lia). lra. }
  unfold round_mag.
  destruct (Z_le_gt_dec (quantum v) e) as [Q|Q].
  - apply (round_to_grid (quantum v) (k * 2 ^ (e - quantum v))).
    rewrite inject_Z_mult, <- pow2_nonneg by lia.
    rewrite <- Qmult_assoc, <- pow2_add.
    replace (e - quantum v + quantum v)%Z with e by lia. reflexivity.
  - assert (El : log2_floor v = (e + 53)%Z) by (unfold quantum in Q; lia).
    assert (Eq : quantum v = (e + 1)%Z) by (unfold quantum in *; lia).
    assert (Ev : v == pow2 (e + 53)) by (rewrite El in L; lra).
    rewrite Eq. rewrite (round_to_proper _ _ _ Ev), Ev.
    apply round_to_pow2. lia.
Qed.

Lemma round_mag_idem (a : Q) : 0 < a -> round_mag (round_mag a) == round_mag a.
Proof.
  intro Ha. destruct (round_mag_grid a Ha) as (k & Hk & E).
  destruct (Z.eq_dec k 0) as [->|NZ].
  - assert (Z0 : round_mag a == 0) by (rewrite E; ring).
    set (x := round_mag a) in *. unfold round_mag, round_to.
    rewrite (rhe_proper (x / pow2 (quantum x)) (inject_Z 0)).
    + rewrite rhe_int. apply Qeq_trans with 0; [|symmetry; exact Z0].
      change (inject_Z 0) with 0. ring.
    + apply Qeq_trans with (0 / pow2 (quantum x)).
      * apply Qdiv_comp; [exact Z0|reflexivity].
      * unfold Qdiv. change (inject_Z 0) with 0. ring.
  - assert (Hpos : 0 < round_mag a).
    { rewrite E. apply Qmult_lt_0_compat; [|apply pow2_pos].
      change 0 with (inject_Z 0). rewrite <- Zlt_Qlt. lia. }
    rewrite (round_mag_proper _ _ Hpos E), E.
    apply round_mag_float; [lia|apply quantum_ge].
Qed.

(** ** Rounding a number of any sign *)

Lemma round_val_pos (q : Q) : 0 < q -> round_val q = round_mag q.
Proof.
  intro H. unfold round_val.
  assert (C : Qcompare q 0 = Gt) by (apply (proj1 (Qgt_alt _ _)); exact H).
  rewrite C. reflexivity.
Qed.

Lemma round_val_neg (q : Q) : q < 0 -> round_val q = - round_mag (- q).
Proof.
  intro H. unfold round_val.
  assert (C : Qcompare q 0 = Lt) by (apply (proj1 (Qlt_alt _ _)); exact H).
  rewrite C. reflexivity.
Qed.

Lemma round_val_zero (q : Q) : q == 0 -> round_val q = 0.
Proof.
  intro H. unfold round_val.
  assert (C : Qcompare q 0 = Eq) by (apply (proj1 (Qeq_alt _ _)); exact H).
  rewrite C. reflexivity.
Qed.

Lemma round_val_cases (q : Q) :
  (q < 0 /\ round_val q = - round_mag (- q))
  \/ (q == 0 /\ round_val q = 0)
  \/ (0 < q /\ round_val q = round_mag q).
Proof.
  destruct (Q_dec q 0) as [[H|H]|H].
  - left. split; [exact H|apply round_val_neg; exact H].
  - right. right. split; [exact H|apply round_val_pos; exact H].
  - right. left. split; [exact H|apply round_val_zero; exact H].
Qed.

Lemma round_val_nonneg (q : Q) : 0 <= q -> 0 <= round_val q.
Proof.
  intro H. destruct (round_val_cases q) as [[N _]|[[_ ->]|[P ->]]]; try lra.
  apply round_mag_nonneg. lra.
Qed.

Lemma round_val_mono (x y : Q) : x <= y -> round_val x <= round_val y.
Proof.
  intro H.
  destruct (round_val_cases x) as [[Nx Ex]|[[Zx Ex]|[Px Ex]]];
    destruct (round_val_cases y) as [[Ny Ey]|[[Zy Ey]|[Py Ey]]];
    rewrite Ex, Ey; try lra.
  - pose proof (round_mag_mono (- y) (- x) ltac:(lra) ltac:(lra)). lra.
  - pose proof (round_mag_nonneg (- x) ltac:(lra)). lra.
  - pose proof (round_mag_nonneg (- x) ltac:(lra)).
    pose proof (round_mag_nonneg y ltac:(lra)). lra.
  - apply round_mag_nonneg. lra.
  - apply round_mag_mono; assumption.
Qed.

Lemma round_val_proper (x y : Q) : x == y -> round_val x == round_val y.
Proof.
  intro E.
  destruct (round_val_cases x) as [[Nx Ex]|[[Zx Ex]|[Px Ex]]];
    destruct (round_val_cases y) as [[Ny Ey]|[[Zy Ey]|[Py Ey]]];
    rewrite Ex, Ey; try lra.
  - apply Qopp_comp. apply round_mag_proper; [lra|]. rewrite E. reflexivity.
  - apply round_mag_proper; assumption.
Qed.

Lemma round_val_idem (q : Q) : round_val (round_val q) == round_val q.
Proof.
  destruct (round_val_cases q) as [[N E]|[[Z E]|[P E]]]; rewrite E.
  - pose proof (round_mag_nonneg (- q) ltac:(lra)) as H.
    pose proof (round_mag_idem (- q) ltac:(lra)) as I.
    destruct (Qlt_le_dec 0 (round_mag (- q))) as [Hp|Hz].
    + rewrite round_val_neg by lra.
      apply Qopp_comp.
      rewrite (round_mag_proper (- - round_mag (- q)) (round_mag (- q)))
        by (try lra; ring).
      exact I.
    + rewrite round_val_zero by lra. lra.
  - rewrite round_val_zero; reflexivity.
  - pose proof (round_mag_nonneg q ltac:(lra)) as H.
    destruct (Qlt_le_dec 0 (round_mag q)) as [Hp|Hz].
    + rewrite round_val_pos by exact Hp. apply round_mag_idem. exact P.
    + rewrite round_val_zero by lra. lra.
Qed.

(** Between two values that rounding keeps, the rounded value stays. *)
Lemma round_val_between (q lo hi : Q) :
  round_val lo == lo -> round_val hi == hi -> lo <= q -> q <= hi ->
  lo <= round_val q /\ round_val q <= hi.
Proof.
  intros Elo Ehi L U. split.
  - rewrite <- Elo. apply round_val_mono. exact L.
  - rewrite <- Ehi. apply round_val_mono. exact U.
Qed.

(** ** Rounding to binary64 *)

Lemma round64_F (q : Q) :
  - pow2 1024 < round_val q -> round_val q < pow2 1024 ->
  round64 q = F (round_val q).
Proof.
  intros L U. unfold round64.
  replace (Qle_bool (pow2 1024) (round_val q)) with false.
  - replace (Qle_bool (round_val q) (- pow2 1024)) with false; [reflexivity|].
    symmetry. destruct (Qle_bool _ _) eqn:E; [|reflexivity].
    apply Qle_bool_iff in E. lra.
  - symmetry. destruct (Qle_bool _ _) eqn:E; [|reflexivity].
    apply Qle_bool_iff in E. lra.
Qed.

Lemma round64_inv (q v : Q) :
  round64 q = F v ->
  v = round_val q /\ - pow2 1024 < v /\ v < pow2 1024.
Proof.
  unfold round64. intro H.
  destruct (Qle_bool (pow2 1024) (round_val q)) eqn:A; [discriminate|].
  destruct (Qle_bool (round_val q) (- pow2 1024)) eqn:B; [discriminate|].
  inversion H; subst. split; [reflexivity|].
  split; apply Qnot_le_lt; intro C; apply Qle_bool_iff in C; congruence.
Qed.

Lemma round64_not_nan (q : Q) : round64 q <> NaN.
Proof.
  unfold round64. destruct (Qle_bool _ _); [discriminate|].
  destruct (Qle_bool _ _); discriminate.
Qed.

Lemma round64_zero (q : Q) : q == 0 -> round64 q = F 0.
Proof.
  intro H. unfold round64. rewrite (round_val_zero q H). reflexivity.
Qed.

Lemma round64_not_negative (q : Q) : 0 <= q -> not_negative (round64 q).
Proof.
  intro H. pose proof (round_val_nonneg q H) as V. unfold round64.
  destruct (Qle_bool (pow2 1024) (round_val q)); [reflexivity|].
  destruct (Qle_bool (round_val q) (- pow2 1024)) eqn:B; [|exact V].
  apply Qle_bool_iff in B. pose proof (pow2_pos 1024). simpl. lra.
Qed.

Lemma round64_between (q lo hi : Q) :
  round_val lo == lo -> round_val hi == hi ->
  - pow2 1024 < lo -> hi < pow2 1024 -> lo <= q -> q <= hi ->
  exists v, round64 q = F v /\ v = round_val q /\ lo <= v /\ v <= hi.
Proof.
  intros Elo Ehi Blo Bhi L U.
  destruct (round_val_between q lo hi Elo Ehi L U) as [A B].
  exists (round_val q). split; [apply round64_F; lra|]. auto.
Qed.

(** ** Binary64 values *)

Lemma is_float64b_spec (q : Q) : is_float64b q = true -> is_float64 q.
Proof.
  unfold is_float64b, is_float64. intro H.
  apply andb_true_iff in H. destruct H as [H C].
  apply andb_true_iff in H. destruct H as [A B].
  apply Qeq_bool_iff in A. apply negb_true_iff in B, C.
  split; [exact A|].
  split; apply Qnot_le_lt; intro X; apply Qle_bool_iff in X; congruence.
Qed.

Lemma round64_is_float (q v : Q) : round64 q = F v -> is_float64 v.
Proof.
  intro H. destruct (round64_inv q v H) as (-> & L & U).
  split; [apply round_val_idem|]. split; assumption.
Qed.

(** Below 360 a binary64 value is at most [360 - 2^-44]. *)
Lemma float_below_360 (q : Q) :
  is_float64 q -> q < 360 -> pow2 (-44) <= 360 - q.
Proof.
  intros (E & _) H.
  assert (P44 : pow2 (-44) <= 1) by (vm_compute; discriminate).
  destruct (Qlt_le_dec q 256) as [Small|Big]; [lra|].
  assert (L8 : log2_floor q = 8%Z).
  { apply log2_floor_unique.
    - change (pow2 8) with 256. exact Big.
    - apply Qlt_trans with 360; [exact H|]. reflexivity. }
  assert (Q44 : quantum q = (-44)%Z) by (unfold quantum; rewrite L8; reflexivity).
  rewrite round_val_pos in E by lra.
  unfold round_mag, round_to in E. rewrite Q44 in E.
  set (k := round_half_even (q / pow2 (-44))) in *.
  assert (E360 : 360 == inject_Z (360 * 2 ^ 44) * pow2 (-44))
    by (vm_compute; reflexivity).
  assert (Hk : (k < 360 * 2 ^ 44)%Z).
  { rewrite Zlt_Qlt.
    apply (Qmult_lt_r _ _ (pow2 (-44)) (pow2_pos (-44))).
    rewrite E, <- E360. exact H. }
  assert (Hk' : inject_Z k <= inject_Z (360 * 2 ^ 44) - 1).
  { setoid_replace (inject_Z (360 * 2 ^ 44) - 1)
      with (inject_Z (360 * 2 ^ 44 - 1)).
    - rewrite <- Zle_Qle. lia.
    - unfold Z.sub. rewrite inject_Z_plus. reflexivity. }
  rewrite <- E. rewrite E360 at 1.
  pose proof (pow2_pos (-44)) as P.
  apply Qle_trans with ((inject_Z (360 * 2 ^ 44) - inject_Z k) * pow2 (-44)).
  - setoid_replace (pow2 (-44)) with (1 * pow2 (-44)) at 1 by ring.
    apply Qmult_le_compat_r; lra.
  - ring_simplify. lra.
Qed.

(** ** Comparisons *)

Lemma Qlt_bool_iff (a b : Q) : Qlt_bool a b = true <-> a < b.
Proof.
  unfold Qlt_bool. rewrite negb_true_iff. split; intro H.
  - apply Qnot_le_lt. intro Hle. apply Qle_bool_iff in Hle. congruence.
  - destruct (Qle_bool b a) eqn:E; [|reflexivity].
    apply Qle_bool_iff in E. exfalso. apply (Qlt_not_le _ _ H E).
Qed.

Lemma Qlt_bool_false (a b : Q) : Qlt_bool a b = false <-> b <= a.
Proof.
  unfold Qlt_bool. rewrite negb_false_iff. apply Qle_bool_iff.
Qed.

Lemma Qle_bool_false (a b : Q) : Qle_bool a b = false <-> b < a.
Proof.
  rewrite <- Qlt_bool_iff. unfold Qlt_bool.
  destruct (Qle_bool a b); simpl; intuition congruence.
Qed.

(** Turns every boolean comparison of the context and the goal into an
    order statement on [Q]. *)
Ltac qbool :=
  repeat match goal with
  | H : Qlt_bool _ _ = true |- _ => apply Qlt_bool_iff in H
  | H : Qlt_bool _ _ = false |- _ => apply Qlt_bool_false in H
  | H : Qle_bool _ _ = true |- _ => apply Qle_bool_iff in H
  | H : Qle_bool _ _ = false |- _ => apply Qle_bool_false in H
  end.

(** ** List indexing *)

Lemma py_index_nth {A : Type} (l : list A) (i : nat) (d : A) :
  (i < List.length l)%nat -> py_index l (Z.of_nat i) = Ok (nth i l d).
Proof.
  intro H. unfold py_index.
  replace (Z.of_nat i <? 0)%Z with false by (symmetry; apply Z.ltb_ge; lia).
  replace (0 <=? Z.of_nat i)%Z with true by (symmetry; apply Z.leb_le; lia).
  replace (Z.of_nat i <? Z.of_nat (List.length l))%Z with true
    by (symmetry; apply Z.ltb_lt; lia).
  simpl. rewrite Nat2Z.id.
  rewrite (nth_error_nth' l d H). reflexivity.
Qed.

Lemma py_index_below {A : Type} (l : list A) (i : Z) :
  (i < - Z.of_nat (List.length l))%Z -> py_index l i = Raise IndexError.
Proof.
  intro H. unfold py_index.
  replace (i <? 0)%Z with true by (symmetry; apply Z.ltb_lt; lia).
  replace (0 <=? Z.of_nat (List.length l) + i)%Z with false
    by (symmetry; apply Z.leb_gt; lia).
  reflexivity.
Qed.

Lemma skipn_cons_nth {A : Type} (d : A) (l : list A) :
  forall (i : nat) (a : A) (r : list A),
    skipn i l = a :: r -> nth i l d = a /\ skipn (S i) l = r /\ (i < List.length l)%nat.
Proof.
  induction l as [|b l IH]; intros i a r H.
  - destruct i; discriminate H.
  - destruct i as [|i].
    + simpl in H. inversion H; subst. simpl. repeat split. lia.
    + simpl in H. destruct (IH i a r H) as (H1 & H2 & H3).
      simpl. repeat split; trivial. lia.
Qed.

(** ** Counting *)

Lemma count_S (f : nat -> bool) (n : nat) :
  count f (S n) = (count f n + b2n (f n))%nat.
Proof.
  unfold count. rewrite seq_S, filter_app, length_app. simpl.
  destruct (f n); reflexivity.
Qed.

Lemma count_zero (f : nat -> bool) (n : nat) :
  count f n = 0%nat -> forall j, (j < n)%nat -> f j = false.
Proof.
  induction n as [|n IH]; intros H j Hj; [lia|].
  rewrite count_S in H.
  destruct (Nat.eq_dec j n) as [->|Hne].
  - destruct (f n); simpl in H; [lia|reflexivity].
  - apply IH; lia.
Qed.

Lemma count_one (f : nat -> bool) (n : nat) :
  count f n = 1%nat ->
  exists i, (i < n)%nat /\ f i = true /\
            forall j, (j < n)%nat -> f j = true -> j = i.
Proof.
  induction n as [|n IH]; intro H; [discriminate H|].
  rewrite count_S in H. destruct (f n) eqn:E; simpl in H.
  - exists n. repeat split; [lia|assumption|].
    intros j Hj Hfj. destruct (Nat.eq_dec j n) as [|Hne]; [assumption|].
    assert (Hz : count f n = 0%nat) by lia.
    rewrite (count_zero f n Hz j) in Hfj by lia. discriminate.
  - destruct IH as (i & Hi & Hfi & Hu); [lia|].
    exists i. repeat split; [lia|assumption|].
    intros j Hj Hfj. destruct (Nat.eq_dec j n) as [->|Hne]; [congruence|].
    apply Hu; [lia|assumption].
Qed.

(** ** As many active terms as wrapping pairs *)

(** One pair of adjacent starts: whether its term is active is the wrap
    indicator plus the difference of [below] at the two ends. *)
Lemma pair_balance (a b longitude : Q) :
  (b2n (in_range a b longitude) + below longitude b
   = b2n (Qlt_bool b a) + below longitude a)%nat.
Proof.
  unfold in_range, below.
  destruct (Qlt_bool b a) eqn:W; destruct (Qle_bool a longitude) eqn:A;
    destruct (Qle_bool b longitude) eqn:B;
    destruct (Qlt_bool longitude b) eqn:C; simpl; try reflexivity;
    exfalso; qbool; lra.
Qed.

Lemma next_lon_at_small (data : Data) (i : nat) :
  (i < 23)%nat -> next_lon_at data i = lon_at data (S i).
Proof.
  intro H. unfold next_lon_at. rewrite Nat.mod_small by lia.
  f_equal. lia.
Qed.

Lemma next_lon_at_last (data : Data) : next_lon_at data 23 = lon_at data 0.
Proof. reflexivity. Qed.

Lemma count_balance (data : Data) (longitude : Q) (k : nat) :
  (k <= 23)%nat ->
  (count (active data longitude) k + below longitude (lon_at data k)
   = count (wraps data) k + below longitude (lon_at data 0))%nat.
Proof.
  induction k as [|k IH]; intro Hk; [reflexivity|].
  rewrite !count_S. specialize (IH ltac:(lia)).
  unfold active at 2, wraps at 2.
  rewrite next_lon_at_small by lia.
  pose proof (pair_balance (lon_at data k) (lon_at data (S k)) longitude).
  lia.
Qed.

(** On any table the number of terms whose range condition holds is the
    number of wrapping pairs. *)
Lemma count_active_wraps (data : Data) (longitude : Q) :
  count (active data longitude) 24 = count_wraps data.
Proof.
  unfold count_wraps.
  rewrite (count_S (active data longitude) 23), (count_S (wraps data) 23).
  pose proof (count_balance data longitude 23 ltac:(lia)) as H.
  unfold active at 2, wraps at 2. rewrite next_lon_at_last.
  pose proof (pair_balance (lon_at data 23) (lon_at data 0) longitude).
  lia.
Qed.

Lemma unique_active (data : Data) (longitude : Q) :
  count_wraps data = 1%nat ->
  exists i, (i < 24)%nat /\ active data longitude i = true /\
            forall j, (j < 24)%nat -> active data longitude j = true -> j = i.
Proof.
  intro H. apply count_one. rewrite count_active_wraps. exact H.
Qed.

(** ** The loop of [find_current_ko] *)

Section Loop.

Variable data : Data.
Variable longitude : Q.
Hypothesis len24 : List.length (data_sekki data) = 24%nat.

Let sekki_list := data_sekki data.

Lemma next_sekki_ok (i : nat) :
  py_index sekki_list ((Z.of_nat i + 1) mod 24)%Z
  = Ok (nth ((i + 1) mod 24) sekki_list dummy_sekki).
Proof.
  replace ((Z.of_nat i + 1) mod 24)%Z with (Z.of_nat ((i + 1) mod 24)).
  - apply py_index_nth. subst sekki_list. rewrite len24.
    apply Nat.mod_upper_bound. lia.
  - rewrite Nat2Z.inj_mod. f_equal. lia.
Qed.

(** One iteration at position [i]: the body returns iff term [i] is
    active. *)
Lemma find_loop_step (i : nat) (s : Sekki) (rest : list Sekki) :
  skipn i sekki_list = s :: rest ->
  find_loop longitude sekki_list i (s :: rest)
  = if active data longitude i
    then r <- _find_ko_in_sekki longitude s (next_lon_at data i) ;; Ok (Some r)
    else find_loop longitude sekki_list (S i) rest.
Proof.
  intro Hs.
  destruct (skipn_cons_nth dummy_sekki _ _ _ _ Hs) as (Hn & _ & _).
  simpl. rewrite next_sekki_ok. simpl.
  unfold active, in_range, next_lon_at, lon_at. fold sekki_list.
  rewrite Hn.
  destruct (Qlt_bool _ (sekki_longitude s)); reflexivity.
Qed.

(** No active term from [i] on: the loop runs to its end. *)
Lemma find_loop_none (rest : list Sekki) :
  forall i, skipn i sekki_list = rest ->
    (forall j, (i <= j < 24)%nat -> active data longitude j = false) ->
    find_loop longitude sekki_list i rest = Ok None.
Proof.
  induction rest as [|s rest IH]; intros i Hs Hno; [reflexivity|].
  destruct (skipn_cons_nth dummy_sekki _ _ _ _ Hs) as (_ & Hr & Hlt).
  rewrite find_loop_step by assumption.
  fold sekki_list in len24. rewrite Hno by lia.
  apply IH; [assumption|]. intros j Hj. apply Hno. lia.
Qed.

(** The loop returns at the first active term. *)
Lemma find_loop_first (rest : list Sekki) :
  forall i j, skipn i sekki_list = rest ->
    (i <= j < 24)%nat ->
    active data longitude j = true ->
    (forall j', (i <= j' < j)%nat -> active data longitude j' = false) ->
    find_loop longitude sekki_list i rest
    = (r <- _find_ko_in_sekki longitude (nth j sekki_list dummy_sekki)
                              (next_lon_at data j) ;; Ok (Some r)).
Proof.
  induction rest as [|s rest IH]; intros i j Hs Hj Hact Hbefore.
  - exfalso. fold sekki_list in len24.
    assert (Hl : List.length (skipn i sekki_list) = 0%nat) by (rewrite Hs; reflexivity).
    rewrite length_skipn in Hl. lia.
  - destruct (skipn_cons_nth dummy_sekki _ _ _ _ Hs) as (Hn & Hr & Hlt).
    rewrite find_loop_step by assumption.
    destruct (Nat.eq_dec i j) as [->|Hne].
    + rewrite Hact, Hn. reflexivity.
    + rewrite Hbefore by lia. apply IH; trivial; [lia|].
      intros j' Hj'. apply Hbefore. lia.
Qed.

(** With a single active term [i], [find_current_ko] is
    [_find_ko_in_sekki] on term [i]. *)
Lemma find_current_ko_unique (i : nat) :
  (i < 24)%nat ->
  active data longitude i = true ->
  (forall j, (j < 24)%nat -> active data longitude j = true -> j = i) ->
  find_current_ko longitude data
  = _find_ko_in_sekki longitude (nth i sekki_list dummy_sekki)
                      (next_lon_at data i).
Proof.
  intros Hi Hact Hu. unfold find_current_ko. fold sekki_list.
  rewrite (find_loop_first sekki_list 0 i); trivial; [|lia|].
  - destruct (_find_ko_in_sekki _ _ _); reflexivity.
  - intros j' Hj'. destruct (active data longitude j') eqn:E; [|reflexivity].
    apply Hu in E; lia.
Qed.

(** With no active term, [find_current_ko] takes the fallback of line 67. *)
Lemma find_current_ko_fallback :
  (forall j, (j < 24)%nat -> active data longitude j = false) ->
  find_current_ko longitude data
  = (s0 <- py_index sekki_list 0 ;;
     k0 <- py_index (sekki_ko s0) 0 ;;
     Ok (s0, k0, 0%Z)).
Proof.
  intro Hno. unfold find_current_ko. fold sekki_list.
  rewrite (find_loop_none sekki_list 0); trivial.
  intros j Hj. apply Hno. lia.
Qed.

End Loop.

(** ** Truncation and indexing *)

Lemma py_int_floor (q : Q) : 0 <= q -> py_int q = Qfloor q.
Proof.
  intro H. destruct q as [n d]. unfold py_int, Qfloor. simpl.
  apply Z.quot_div_nonneg; [|lia].
  unfold Qle in H. simpl in H. lia.
Qed.

(** [Qfloor q = k] iff [k <= q < k + 1]. *)
Lemma floor_eq (q : Q) (k : Z) :
  Qfloor q = k <-> inject_Z k <= q /\ q < inject_Z (k + 1).
Proof.
  split.
  - intros <-. split; [apply Qfloor_le|apply Qlt_floor].
  - intros [H1 H2].
    pose proof (Qfloor_le q) as F1. pose proof (Qlt_floor q) as F2.
    assert (A : inject_Z k < inject_Z (Qfloor q + 1)) by lra.
    assert (B : inject_Z (Qfloor q) < inject_Z (k + 1)) by lra.
    rewrite <- Zlt_Qlt in A, B. lia.
Qed.

Lemma floor_ge (q : Q) (k : Z) : (k <= Qfloor q)%Z <-> inject_Z k <= q.
Proof.
  split; intro H.
  - pose proof (Qfloor_le q). rewrite Zle_Qle in H. lra.
  - pose proof (Qlt_floor q) as F.
    assert (A : inject_Z k < inject_Z (Qfloor q + 1)) by lra.
    rewrite <- Zlt_Qlt in A. lia.
Qed.

Lemma py_int_opp (q : Q) : q <= 0 -> py_int q = (- Qfloor (- q))%Z.
Proof.
  intro H. destruct q as [n d]. unfold py_int, Qfloor, Qopp. simpl.
  unfold Qle in H. simpl in H.
  rewrite <- (Z.quot_div_nonneg (- n) (Z.pos d)) by lia.
  rewrite Z.quot_opp_l by lia. lia.
Qed.

(** [int(q) <= k] for a negative [k] says [q <= k]: truncation is toward
    zero. *)
Lemma py_int_le_neg (q : Q) (k : Z) :
  (k < 0)%Z -> ((py_int q <= k)%Z <-> q <= inject_Z k).
Proof.
  intro Hk.
  assert (Hk' : inject_Z k < 0) by (rewrite (Zlt_Qlt k 0) in Hk; exact Hk).
  destruct (Qlt_le_dec q 0) as [Hq|Hq].
  - rewrite py_int_opp by lra.
    assert (E : (- Qfloor (- q) <= k)%Z <-> (- k <= Qfloor (- q))%Z) by lia.
    rewrite E, floor_ge, inject_Z_opp. split; intro; lra.
  - rewrite py_int_floor by assumption.
    pose proof (proj2 (floor_ge q 0) Hq). split; intro; [lia|lra].
Qed.

Lemma py_index_three {A : Type} (l : list A) (i : Z) :
  List.length l = 3%nat -> (0 <= i <= 2)%Z ->
  exists a, py_index l i = Ok a /\ nth_error l (Z.to_nat i) = Some a.
Proof.
  intros Hl Hi.
  destruct l as [|a [|b [|c [|? ?]]]]; try discriminate Hl.
  assert (H : i = 0%Z \/ i = 1%Z \/ i = 2%Z) by lia.
  destruct H as [->|[->| ->]]; eexists; split; reflexivity.
Qed.

Lemma py_index_inv {A : Type} (l : list A) (i : Z) (a : A) :
  py_index l i = Ok a ->
  In a l /\ (- Z.of_nat (List.length l) <= i < Z.of_nat (List.length l))%Z.
Proof.
  unfold py_index. intro H.
  destruct (i <? 0)%Z eqn:N;
    destruct ((0 <=? _)%Z && (_ <? _)%Z)%bool eqn:B; try discriminate H;
    apply andb_true_iff in B; destruct B as [B1 B2];
    apply Z.leb_le in B1; apply Z.ltb_lt in B2;
    destruct (nth_error l _) eqn:E; try discriminate H;
    inversion H; subst; (split; [eapply nth_error_In; exact E|]).
  - apply Z.ltb_lt in N. lia.
  - apply Z.ltb_ge in N. lia.
Qed.

Lemma py_index_above {A : Type} (l : list A) (i : Z) :
  (Z.of_nat (List.length l) <= i)%Z -> py_index l i = Raise IndexError.
Proof.
  intro H. unfold py_index.
  replace (i <? 0)%Z with false by (symmetry; apply Z.ltb_ge; lia).
  replace (i <? Z.of_nat (List.length l))%Z with false
    by (symmetry; apply Z.ltb_ge; lia).
  rewrite andb_false_r. reflexivity.
Qed.

Lemma py_index_in_range {A : Type} (l : list A) (i : Z) :
  (- Z.of_nat (List.length l) <= i < Z.of_nat (List.length l))%Z ->
  exists a, py_index l i = Ok a.
Proof.
  intro H. unfold py_index.
  destruct (i <? 0)%Z eqn:N.
  - apply Z.ltb_lt in N.
    replace (0 <=? Z.of_nat (List.length l) + i)%Z with true
      by (symmetry; apply Z.leb_le; lia).
    replace (Z.of_nat (List.length l) + i <? Z.of_nat (List.length l))%Z with true
      by (symmetry; apply Z.ltb_lt; lia).
    simpl. destruct (nth_error l _) eqn:E; [eexists; reflexivity|].
    apply nth_error_None in E. lia.
  - apply Z.ltb_ge in N.
    replace (0 <=? i)%Z with true by (symmetry; apply Z.leb_le; lia).
    replace (i <? Z.of_nat (List.length l))%Z with true
      by (symmetry; apply Z.ltb_lt; lia).
    simpl. destruct (nth_error l _) eqn:E; [eexists; reflexivity|].
    apply nth_error_None in E. lia.
Qed.

(** ** Well-formed tables *)

Lemma well_formed_nth (data : Data) (i : nat) :
  well_formed data -> (i < 24)%nat ->
  sekki_ok (nth i (data_sekki data) dummy_sekki)
  /\ nth_error (data_sekki data) i = Some (nth i (data_sekki data) dummy_sekki).
Proof.
  intros (Hl & Hf & _) Hi. split.
  - rewrite Forall_forall in Hf. apply Hf. apply nth_In. lia.
  - apply nth_error_nth'. lia.
Qed.

Lemma well_formed_lon (data : Data) (i : nat) :
  well_formed data -> (i < 24)%nat -> lon_ok (lon_at data i).
Proof.
  intros H Hi. apply (well_formed_nth data i H Hi).
Qed.

Lemma well_formed_next_lon (data : Data) (i : nat) :
  well_formed data -> lon_ok (next_lon_at data i).
Proof.
  intros H. apply well_formed_lon; [assumption|].
  apply Nat.mod_upper_bound. lia.
Qed.

Lemma well_formedb_spec (data : Data) :
  well_formedb data = true -> well_formed data.
Proof.
  unfold well_formedb, well_formed. intro H.
  apply andb_true_iff in H. destruct H as [H H3].
  apply andb_true_iff in H. destruct H as [H1 H2].
  apply Nat.eqb_eq in H1. apply Nat.eqb_eq in H3.
  repeat split; trivial.
  apply Forall_forall. intros s Hs.
  rewrite forallb_forall in H2. specialize (H2 s Hs).
  unfold sekki_okb in H2.
  apply andb_true_iff in H2. destruct H2 as [H2 Hk].
  apply andb_true_iff in H2. destruct H2 as [H2 Hb].
  apply andb_true_iff in H2. destruct H2 as [Hf Ha].
  apply Nat.eqb_eq in Hk. apply is_float64b_spec in Hf. qbool.
  split; [|exact Hk]. split; [exact Hf|]. split; assumption.
Qed.

Lemma sample_data_well_formed : well_formed sample_data.
Proof. apply well_formedb_spec. vm_compute. reflexivity. Qed.

Lemma count_wraps_eq (data : Data) : count_wraps data = count (wraps data) 24.
Proof. unfold count_wraps. reflexivity. Qed.

Lemma unique_wrap (data : Data) (w j : nat) :
  well_formed data -> (w < 24)%nat -> (j < 24)%nat ->
  wraps data w = true -> wraps data j = true -> j = w.
Proof.
  intros (_ & _ & Hc) Hw Hj W J. rewrite count_wraps_eq in Hc.
  apply count_one in Hc. destruct Hc as (i & _ & _ & Hu).
  rewrite (Hu w Hw W). apply Hu; assumption.
Qed.

Lemma pred_mod_neq (i : nat) : (i < 24)%nat -> ((i + 23) mod 24)%nat <> i.
Proof.
  intros Hi E.
  pose proof (Nat.div_mod_eq (i + 23) 24) as D. rewrite E in D.
  assert ((i + 23) / 24 = 0 \/ (i + 23) / 24 = 1 \/ 2 <= (i + 23) / 24)%nat as C by lia.
  lia.
Qed.

Lemma succ_mod_neq (i : nat) : (i < 24)%nat -> ((i + 1) mod 24)%nat <> i.
Proof.
  intros Hi E.
  pose proof (Nat.div_mod_eq (i + 1) 24) as D. rewrite E in D.
  assert ((i + 1) / 24 = 0 \/ 1 <= (i + 1) / 24)%nat as C by lia.
  lia.
Qed.

(** ** The fallback and the start of a term *)


Lemma start_active (data : Data) (i : nat) :
  ~ lon_at data i == next_lon_at data i ->
  active data (lon_at data i) i = true.
Proof.
  intro Hne. unfold active, in_range.
  destruct (Qlt_bool (next_lon_at data i) (lon_at data i)) eqn:W.
  - apply orb_true_iff. left. apply Qle_bool_iff. lra.
  - apply andb_true_iff. split.
    + apply Qle_bool_iff. lra.
    + apply Qlt_bool_iff. apply Qlt_bool_false in W.
      destruct (Qlt_le_dec (lon_at data i) (next_lon_at data i)); [assumption|].
      exfalso. apply Hne. lra.
Qed.

(** ** Values that rounding keeps *)

Lemma round_val_opp (q : Q) : round_val (- q) == - round_val q.
Proof.
  destruct (round_val_cases q) as [[N E]|[[Z E]|[P E]]]; rewrite E.
  - rewrite round_val_pos by lra. ring.
  - rewrite round_val_zero by lra. ring.
  - rewrite round_val_neg by lra.
    apply Qopp_comp. apply round_mag_proper; [lra|ring].
Qed.

Lemma log2_floor_pow2 (e : Z) : log2_floor (pow2 e) = e.
Proof.
  apply log2_floor_unique; [lra|]. apply pow2_lt. lia.
Qed.

Lemma round_val_pow2 (e : Z) : (-1074 <= e)%Z -> round_val (pow2 e) == pow2 e.
Proof.
  intro H. rewrite round_val_pos by apply pow2_pos.
  unfold round_mag. apply round_to_pow2.
  unfold quantum. rewrite log2_floor_pow2. lia.
Qed.

Lemma round_val_neg_pow2 (e : Z) :
  (-1074 <= e)%Z -> round_val (- pow2 e) == - pow2 e.
Proof.
  intro H. rewrite round_val_opp, (round_val_pow2 e H). reflexivity.
Qed.

Lemma round_val_0 : round_val 0 == 0.
Proof. reflexivity. Qed.

Lemma neg_max_below (q : Q) : 0 <= q -> - pow2 1024 < q.
Proof. intro H. pose proof (pow2_pos 1024). lra. Qed.

Lemma third_eq (q : Q) : q / 3 == (1 # 3) * q.
Proof. unfold Qdiv. change (/ 3) with (1 # 3). ring. Qed.

(** ** Division and [int] *)

Lemma py_div_three (span : float) : py_div span (F 3) = Ok (fdiv span (F 3)).
Proof. reflexivity. Qed.

Lemma py_div_nonzero (a : float) (c : Q) :
  ~ c == 0 -> py_div a (F c) = Ok (fdiv a (F c)).
Proof.
  intro H. unfold py_div. destruct (Qeq_bool c 0) eqn:E; [|reflexivity].
  apply Qeq_bool_iff in E. contradiction.
Qed.

Lemma py_div_by_zero (a : float) (c : Q) :
  c == 0 -> py_div a (F c) = Raise ZeroDivisionError.
Proof.
  intro H. unfold py_div. apply Qeq_bool_iff in H. rewrite H. reflexivity.
Qed.


(** ** [_find_ko_in_sekki], step by step *)

Lemma find_ko_in_sekki_eq (longitude : Q) (sekki : Sekki) (next_sekki_lon : Q) :
  _find_ko_in_sekki longitude sekki next_sekki_lon
  = (ko_span <- py_div (term_span (sekki_longitude sekki) next_sekki_lon) (F 3) ;;
     quotient <- py_div (term_offset longitude (sekki_longitude sekki)
                                     next_sekki_lon) ko_span ;;
     n <- py_int_float quotient ;;
     k <- py_index (sekki_ko sekki) (Z.min n 2) ;;
     Ok (sekki, k, Z.min n 2)).
Proof.
  unfold _find_ko_in_sekki, term_span, term_offset.
  destruct (Qlt_bool next_sekki_lon (sekki_longitude sekki)); reflexivity.
Qed.

(** With a span whose third is a finite [c] other than zero, a finite
    offset and a finite quotient [q] that is not negative, the function
    returns the index [min(floor(q), 2)]. *)
Lemma find_ko_in_sekki_finite (longitude : Q) (sekki : Sekki)
    (next_sekki_lon c o q : Q) :
  py_div (term_span (sekki_longitude sekki) next_sekki_lon) (F 3) = Ok (F c) ->
  ~ c == 0 ->
  term_offset longitude (sekki_longitude sekki) next_sekki_lon = F o ->
  fdiv (F o) (F c) = F q -> 0 <= q ->
  List.length (sekki_ko sekki) = 3%nat ->
  exists k,
    _find_ko_in_sekki longitude sekki next_sekki_lon
    = Ok (sekki, k, Z.min (Qfloor q) 2)
    /\ (0 <= Z.min (Qfloor q) 2 <= 2)%Z
    /\ nth_error (sekki_ko sekki) (Z.to_nat (Z.min (Qfloor q) 2)) = Some k.
Proof.
  intros Hc Hnz Ho Hq Hq0 Hl.
  rewrite find_ko_in_sekki_eq, Hc, Ho. cbv beta iota delta [bind].
  rewrite (py_div_nonzero _ _ Hnz), Hq. cbv beta iota delta [bind py_int_float].
  rewrite (py_int_floor _ Hq0).
  assert (Hf : (0 <= Qfloor q)%Z) by (apply floor_ge; exact Hq0).
  assert (Hi : (0 <= Z.min (Qfloor q) 2 <= 2)%Z) by lia.
  destruct (py_index_three (sekki_ko sekki) _ Hl Hi) as (k & Hk & Hn).
  exists k. rewrite Hk. simpl. auto.
Qed.

Lemma find_ko_in_sekki_zero_span (longitude : Q) (sekki : Sekki)
    (next_sekki_lon c : Q) :
  py_div (term_span (sekki_longitude sekki) next_sekki_lon) (F 3) = Ok (F c) ->
  c == 0 ->
  _find_ko_in_sekki longitude sekki next_sekki_lon = Raise ZeroDivisionError.
Proof.
  intros Hc Hz. rewrite find_ko_in_sekki_eq, Hc. cbv beta iota delta [bind].
  rewrite (py_div_by_zero _ _ Hz). reflexivity.
Qed.

(** ** Signs *)




Lemma fdiv_not_negative (a b : float) (q : Q) :
  not_negative a -> not_negative b -> fdiv a b = F q -> 0 <= q.
Proof.
  intros Ha Hb H. destruct a as [x|s|]; destruct b as [y|t|]; simpl in *;
    try discriminate; try contradiction.
  - pose proof (round64_not_negative (x / y)) as N.
    rewrite H in N. apply N.
    destruct (Qeq_dec y 0) as [Z|NZ].
    + setoid_replace (x / y) with 0; [lra|].
      unfold Qdiv. rewrite Z. unfold Qinv. simpl. ring.
    + apply Qle_shift_div_l; lra.
  - inversion H. lra.
Qed.



(** ** Results that stay finite *)

Lemma round64_in (q : Q) (a b : Z) :
  (-1074 <= a)%Z -> (a <= b)%Z -> (b < 1024)%Z ->
  pow2 a <= q -> q <= pow2 b ->
  exists v, round64 q = F v /\ v = round_val q /\ pow2 a <= v /\ v <= pow2 b.
Proof.
  intros Ha Hab Hb H1 H2.
  apply round64_between; trivial.
  - apply round_val_pow2. exact Ha.
  - apply round_val_pow2. lia.
  - apply neg_max_below. apply Qlt_le_weak. apply pow2_pos.
  - apply pow2_lt. exact Hb.
Qed.

Lemma round64_in0 (q : Q) (b : Z) :
  (-1074 <= b)%Z -> (b < 1024)%Z -> 0 <= q -> q <= pow2 b ->
  exists v, round64 q = F v /\ v = round_val q /\ 0 <= v /\ v <= pow2 b.
Proof.
  intros Hb1 Hb2 H1 H2.
  apply round64_between; trivial.
  - apply round_val_0.
  - apply round_val_pow2. exact Hb1.
  - apply neg_max_below. lra.
  - apply pow2_lt. exact Hb2.
Qed.

Lemma round64_abs (q : Q) (b : Z) :
  (-1074 <= b)%Z -> (b < 1024)%Z -> - pow2 b <= q -> q <= pow2 b ->
  exists v, round64 q = F v /\ v = round_val q /\ - pow2 b <= v /\ v <= pow2 b.
Proof.
  intros Hb1 Hb2 H1 H2.
  apply round64_between; trivial.
  - apply round_val_neg_pow2. exact Hb1.
  - apply round_val_pow2. exact Hb1.
  - pose proof (pow2_lt b 1024 Hb2). lra.
  - apply pow2_lt. exact Hb2.
Qed.

Lemma pow2_9 : pow2 9 == 512.
Proof. reflexivity. Qed.

Lemma pow2_10 : pow2 10 == 1024.
Proof. reflexivity. Qed.

Lemma pow2_3 : pow2 3 == 8.
Proof. reflexivity. Qed.

(** A quotient of an offset of magnitude at most [2^10] by a [ko_span] of
    at least [2^-46] is finite. *)
Lemma quotient_finite (o c : Q) :
  pow2 (-46) <= c -> - pow2 10 <= o -> o <= pow2 10 ->
  exists q, fdiv (F o) (F c) = F q /\ q = round_val (o / c)
            /\ (0 <= o -> 0 <= q).
Proof.
  intros Hc H1 H2.
  pose proof (pow2_pos (-46)) as P46.
  assert (C0 : 0 < c) by lra.
  assert (E : pow2 10 == pow2 56 * pow2 (-46)) by (rewrite <- pow2_add; reflexivity).
  assert (M : pow2 10 <= pow2 56 * c).
  { rewrite E. apply (proj2 (Qmult_le_l _ _ _ (pow2_pos 56))). exact Hc. }
  destruct (round64_abs (o / c) 56) as (q & Hq & Hv & _ & _); try lia.
  - apply Qle_shift_div_l; [exact C0|].
    setoid_replace (- pow2 56 * c) with (- (pow2 56 * c)) by ring. lra.
  - apply Qle_shift_div_r; [exact C0|]. lra.
  - exists q. simpl. split; [exact Hq|]. split; [exact Hv|].
    intro O. subst q. apply round_val_nonneg.
    apply Qle_shift_div_l; [exact C0|]. lra.
Qed.

(** ** The wrapping term: no underflow *)

(** [360 - lon] is a float of at least [2^-44]. *)
Lemma wrap_gap (lon : Q) :
  lon_ok lon ->
  exists d, fsub (F 360) (F lon) = F d /\ d = round_val (360 - lon)
            /\ is_float64 d /\ pow2 (-44) <= d /\ d <= pow2 9.
Proof.
  intros (Hf & H0 & H1).
  pose proof (float_below_360 lon Hf H1) as G.
  destruct (round64_in (360 - lon) (-44) 9) as (d & Hd & Hv & L & U); try lia.
  - exact G.
  - rewrite pow2_9. lra.
  - exists d. simpl. repeat split; trivial;
      apply (round64_is_float _ _ Hd).
Qed.

(** The span of the wrapping term and its third. *)
Lemma wrap_span (lon next_lon : Q) :
  lon_ok lon -> lon_ok next_lon -> Qlt_bool next_lon lon = true ->
  exists d sv c,
    fsub (F 360) (F lon) = F d /\ is_float64 d
    /\ pow2 (-44) <= d /\ d <= pow2 9
    /\ term_span lon next_lon = F sv /\ sv = round_val (d + next_lon)
    /\ is_float64 sv /\ pow2 (-44) <= sv /\ sv <= pow2 10
    /\ fdiv (F sv) (F 3) = F c /\ c = round_val (sv / 3)
    /\ is_float64 c /\ pow2 (-46) <= c /\ c <= pow2 9.
Proof.
  intros Hl Hn W.
  destruct (wrap_gap lon Hl) as (d & Hd & _ & Fd & L & U).
  destruct Hn as (_ & N0 & N1).
  pose proof pow2_9 as P9. pose proof pow2_10 as P10.
  destruct (round64_in (d + next_lon) (-44) 10) as (sv & Hs & Hsv & Ls & Us);
    try lia; try lra.
  assert (E46 : pow2 (-46) == (1 # 4) * pow2 (-44)).
  { setoid_replace (pow2 (-46)) with (pow2 (-2 + -44)) by reflexivity.
    rewrite pow2_add. reflexivity. }
  destruct (round64_in (sv / 3) (-46) 9) as (c & Hc & Hcv & Lc & Uc); try lia.
  - rewrite third_eq. pose proof (pow2_pos (-44)). lra.
  - rewrite third_eq. lra.
  - exists d, sv, c. unfold term_span. rewrite W, Hd. simpl.
    repeat split; trivial; try apply Fd;
      try apply (round64_is_float _ _ Hs); try apply (round64_is_float _ _ Hc).
Qed.

(** The offset in the wrapping term, for a longitude of magnitude at most
    360. *)
Lemma wrap_offset (longitude lon next_lon : Q) :
  lon_ok lon -> Qlt_bool next_lon lon = true ->
  - (360) <= longitude -> longitude <= 360 ->
  exists o, term_offset longitude lon next_lon = F o
            /\ is_float64 o /\ - pow2 10 <= o /\ o <= pow2 10
            /\ o = round_val (if Qle_bool lon longitude then longitude - lon
                              else round_val (360 - lon) + longitude).
Proof.
  intros Hl W X0 X1.
  destruct (wrap_gap lon Hl) as (d & Hd & Ed & Fd & L & U).
  destruct Hl as (_ & L0 & L1).
  pose proof pow2_9 as P9. pose proof pow2_10 as P10.
  pose proof (pow2_pos (-44)) as P44.
  unfold term_offset. rewrite W.
  destruct (Qle_bool lon longitude) eqn:E.
  - destruct (round64_abs (longitude - lon) 10) as (o & Ho & Hv & Lo & Uo);
      try lia; try lra.
    exists o. simpl. repeat split; trivial; apply (round64_is_float _ _ Ho).
  - rewrite Hd.
    destruct (round64_abs (d + longitude) 10) as (o & Ho & Hv & Lo & Uo);
      try lia; try lra.
    exists o. simpl. rewrite <- Ed.
    repeat split; trivial; apply (round64_is_float _ _ Ho).
Qed.
(** ** A term that does not wrap *)

Lemma plain_span (lon next_lon : Q) :
  lon_ok lon -> lon_ok next_lon -> Qlt_bool next_lon lon = false ->
  exists sv c,
    term_span lon next_lon = F sv /\ sv = round_val (next_lon - lon)
    /\ is_float64 sv /\ 0 <= sv
    /\ fdiv (F sv) (F 3) = F c /\ c = round_val (sv / 3)
    /\ is_float64 c /\ 0 <= c
    /\ (~ c == 0 -> sv <= 6 * c).
Proof.
  intros (_ & L0 & L1) (_ & N0 & N1) W.
  apply Qlt_bool_false in W.
  pose proof pow2_9 as P9.
  destruct (round64_in0 (next_lon - lon) 9) as (sv & Hs & Hsv & Ls & Us);
    try lia; try lra.
  destruct (round64_in0 (sv / 3) 9) as (c & Hc & Hcv & Lc & Uc);
    try lia; try (rewrite third_eq; lra).
  exists sv, c. unfold term_span.
  replace (Qlt_bool next_lon lon) with false
    by (symmetry; apply Qlt_bool_false; exact W).
  simpl. repeat split; trivial;
    try apply (round64_is_float _ _ Hs); try apply (round64_is_float _ _ Hc).
  intro NZ.
  assert (P : 0 < sv / 3).
  { destruct (Qlt_le_dec 0 (sv / 3)) as [P|P]; [exact P|].
    exfalso. apply NZ. rewrite Hcv. rewrite round_val_zero; [reflexivity|].
    rewrite third_eq in *. lra. }
  assert (NZ' : ~ round_mag (sv / 3) == 0).
  { rewrite <- (round_val_pos _ P), <- Hcv. exact NZ. }
  pose proof (round_mag_half _ P NZ') as Hh.
  rewrite <- (round_val_pos _ P), <- Hcv, third_eq in Hh. lra.
Qed.

Lemma plain_offset (longitude lon next_lon : Q) :
  lon_ok lon -> lon_ok next_lon -> Qlt_bool next_lon lon = false ->
  lon <= longitude -> longitude < next_lon ->
  exists o, term_offset longitude lon next_lon = F o
            /\ o = round_val (longitude - lon)
            /\ is_float64 o /\ 0 <= o /\ o <= round_val (next_lon - lon).
Proof.
  intros (_ & L0 & L1) (_ & N0 & N1) W X0 X1.
  pose proof pow2_9 as P9.
  destruct (round64_in0 (longitude - lon) 9) as (o & Ho & Hv & Lo & Uo);
    try lia; try lra.
  exists o. unfold term_offset. rewrite W. simpl.
  repeat split; trivial; try apply (round64_is_float _ _ Ho).
  rewrite Hv. apply round_val_mono. lra.
Qed.

Lemma in_range_plain (lon next_lon longitude : Q) :
  Qlt_bool next_lon lon = false ->
  in_range lon next_lon longitude = true ->
  lon <= longitude /\ longitude < next_lon.
Proof.
  unfold in_range. intros -> H. apply andb_true_iff in H.
  destruct H as [H1 H2]. split; [apply Qle_bool_iff|apply Qlt_bool_iff];
    assumption.
Qed.

(** ** The quotient at the boundaries of the sub-ranges *)

(** A positive float is a multiple of the last bit of its exponent range. *)
Lemma float_grid (o : Q) :
  is_float64 o -> 0 < o -> exists k : Z, o == inject_Z k * pow2 (quantum o).
Proof.
  intros (E & _) P. destruct (round_mag_grid o P) as (k & _ & Hk).
  exists k. rewrite <- Hk, <- (round_val_pos o P). symmetry. exact E.
Qed.

Lemma grid_coarser (k a g : Z) :
  (g <= a)%Z ->
  exists k' : Z, inject_Z k * pow2 a == inject_Z k' * pow2 g.
Proof.
  intro H. exists (k * 2 ^ (a - g))%Z.
  replace a with ((a - g) + g)%Z at 1 by lia.
  rewrite pow2_add, (pow2_nonneg (a - g)) by lia.
  rewrite inject_Z_mult. ring.
Qed.

(** Two multiples of [2^g] differ by at least [2^g]. *)
Lemma grid_gap (x y : Q) (g kx ky : Z) :
  x == inject_Z kx * pow2 g -> y == inject_Z ky * pow2 g -> x < y ->
  x + pow2 g <= y.
Proof.
  intros Hx Hy H. pose proof (pow2_pos g) as P.
  rewrite Hx, Hy in H. apply Qmult_lt_r in H; [|exact P].
  rewrite <- Zlt_Qlt in H.
  assert (L : inject_Z (kx + 1) <= inject_Z ky) by (rewrite <- Zle_Qle; lia).
  rewrite inject_Z_plus in L. change (inject_Z 1) with 1 in L.
  rewrite Hx, Hy.
  setoid_replace (inject_Z kx * pow2 g + pow2 g)
    with ((inject_Z kx + 1) * pow2 g) by ring.
  apply (proj2 (Qmult_le_r _ _ _ P)). exact L.
Qed.

Lemma quantum_upper (c : Q) : 0 < c -> c < pow2 (quantum c + 53).
Proof.
  intro P. destruct (log2_floor_spec c P) as [_ U].
  apply (Qlt_le_trans _ _ _ U). apply pow2_le. unfold quantum. lia.
Qed.

Lemma rhe_below (x : Q) (n : Z) :
  x < inject_Z n - (1 # 2) -> (round_half_even x <= n - 1)%Z.
Proof.
  intro H. destruct (rhe_bounds x) as [_ U].
  assert (L : inject_Z (round_half_even x) < inject_Z n) by lra.
  rewrite <- Zlt_Qlt in L. lia.
Qed.

(** For floats [o] and [c] and [m] = 1 or 2: when [o] is below [m * c],
    the float quotient [o / c] is below [m]; rounding does not reach
    [m]. *)
Lemma quotient_below (o c : Q) (h : Z) :
  is_float64 o -> is_float64 c -> 0 <= o -> 0 < c -> (0 <= h <= 1)%Z ->
  o < pow2 h * c -> round_val (o / c) < pow2 h.
Proof.
  intros Fo Fc O C Hh H.
  pose proof (pow2_pos (h - 1)) as Ph1. pose proof (pow2_pos h) as Ph.
  assert (Eh : pow2 h == 2 * pow2 (h - 1)).
  { replace h with (1 + (h - 1))%Z at 1 by lia. rewrite pow2_add. reflexivity. }
  destruct (Qlt_le_dec (pow2 (h - 1) * c) o) as [B|A].
  - (* the upper half: a gap of one bit *)
    assert (Po : 0 < o).
    { apply (Qle_lt_trans _ (pow2 (h - 1) * c)); [|exact B].
      apply Qmult_le_0_compat; lra. }
    set (g := (quantum c + h - 1)%Z).
    assert (Hg : (g <= quantum o)%Z).
    { destruct (log2_floor_spec c C) as [Lc _].
      assert (M : pow2 (log2_floor c + (h - 1)) <= o).
      { rewrite pow2_add, Qmult_comm. apply Qlt_le_weak.
        apply (Qle_lt_trans _ (pow2 (h - 1) * c)); [|exact B].
        apply (proj2 (Qmult_le_l _ _ _ Ph1)). exact Lc. }
      pose proof (log2_floor_mono _ _ (pow2_pos _) M) as L.
      rewrite log2_floor_pow2 in L. unfold g, quantum. lia. }
    destruct (float_grid o Fo Po) as (ko & Eo).
    destruct (grid_coarser ko (quantum o) g Hg) as (ko' & Eo').
    destruct (float_grid c Fc C) as (kc & Ec).
    destruct (grid_coarser kc (quantum c + h) g ltac:(unfold g; lia)) as (kc' & Ec').
    assert (Emc : pow2 h * c == inject_Z kc' * pow2 g).
    { rewrite <- Ec'. rewrite pow2_add. rewrite Ec at 1. ring. }
    pose proof (grid_gap o (pow2 h * c) g ko' kc'
                  (Qeq_trans _ _ _ Eo Eo') Emc H) as Gap.
    pose proof (quantum_upper c C) as Uc.
    assert (Eg : pow2 (quantum c + 53) == pow2 54 * pow2 g * pow2 (- h)).
    { rewrite <- !pow2_add. unfold g.
      replace (54 + (quantum c + h - 1) + - h)%Z with (quantum c + 53)%Z by lia.
      reflexivity. }
    assert (Ehh : pow2 h * pow2 (- h) == 1).
    { rewrite <- pow2_add. replace (h + - h)%Z with 0%Z by lia. reflexivity. }
    pose proof (pow2_pos g) as Pg. pose proof (pow2_pos (- h)) as Pmh.
    (* [pow2 h * c < 2^54 * 2^g] *)
    assert (S : pow2 h * c < pow2 54 * pow2 g).
    { setoid_replace (pow2 54 * pow2 g)
        with (pow2 h * (pow2 54 * pow2 g * pow2 (- h)))
        by (rewrite <- (Qmult_1_r (pow2 54 * pow2 g)) at 1;
            rewrite <- Ehh; ring).
      apply (proj2 (Qmult_lt_l _ _ _ Ph)). rewrite <- Eg. exact Uc. }
    set (q := o / c).
    assert (Eq : o == q * c) by (unfold q; field; lra).
    assert (Q1 : pow2 (h - 1) < q).
    { unfold q. apply Qlt_shift_div_l; assumption. }
    assert (P54 : pow2 54 == 18014398509481984) by reflexivity.
    assert (Q2 : q < pow2 h - pow2 (h - 54)).
    { unfold q. apply Qlt_shift_div_r; [exact C|].
      assert (E54 : pow2 (h - 54) * c * pow2 54 == pow2 h * c).
      { replace h with ((h - 54) + 54)%Z at 2 by lia. rewrite pow2_add. ring. }
      setoid_replace ((pow2 h - pow2 (h - 54)) * c)
        with (pow2 h * c - pow2 (h - 54) * c) by ring.
      assert (T : pow2 (h - 54) * c < pow2 g).
      { apply (proj1 (Qmult_lt_r _ _ (pow2 54) (pow2_pos 54))).
        rewrite E54, (Qmult_comm (pow2 g)). exact S. }
      lra. }
    assert (Lq : log2_floor q = (h - 1)%Z).
    { apply log2_floor_unique; [lra|].
      replace (h - 1 + 1)%Z with h by lia.
      pose proof (pow2_pos (h - 54)). lra. }
    assert (Pq : 0 < q) by lra.
    rewrite (round_val_pos q Pq). unfold round_mag, quantum. rewrite Lq.
    replace (Z.max (h - 1 - 52) (-1074)) with (h - 53)%Z by lia.
    unfold round_to.
    assert (R : (round_half_even (q / pow2 (h - 53)) <= 2 ^ 53 - 1)%Z).
    { apply rhe_below.
      apply Qlt_shift_div_r; [apply pow2_pos|].
      setoid_replace ((inject_Z (2 ^ 53) - (1 # 2)) * pow2 (h - 53))
        with (pow2 h - pow2 (h - 54)); [exact Q2|].
      rewrite <- (pow2_nonneg 53) by lia.
      setoid_replace ((pow2 53 - (1 # 2)) * pow2 (h - 53))
        with (pow2 53 * pow2 (h - 53) - pow2 (-1) * pow2 (h - 53))
        by (change (pow2 (-1)) with (1 # 2); ring).
      rewrite <- !pow2_add.
      replace (53 + (h - 53))%Z with h by lia.
      replace (-1 + (h - 53))%Z with (h - 54)%Z by lia. reflexivity. }
    apply (Qle_lt_trans _ (inject_Z (2 ^ 53 - 1) * pow2 (h - 53))).
    + apply (proj2 (Qmult_le_r _ _ _ (pow2_pos (h - 53)))).
      rewrite <- Zle_Qle. exact R.
    + assert (E53 : pow2 h == inject_Z (2 ^ 53) * pow2 (h - 53)).
      { rewrite <- (pow2_nonneg 53), <- pow2_add by lia.
        replace (53 + (h - 53))%Z with h by lia. reflexivity. }
      rewrite E53. apply (proj2 (Qmult_lt_r _ _ _ (pow2_pos (h - 53)))).
      rewrite <- Zlt_Qlt. lia.
  - (* the lower half *)
    assert (Q1 : o / c <= pow2 (h - 1)).
    { apply Qle_shift_div_r; assumption. }
    apply (Qle_lt_trans _ (round_val (pow2 (h - 1)))).
    + apply round_val_mono. exact Q1.
    + rewrite round_val_pow2 by lia. lra.
Qed.

Lemma quotient_above (o c : Q) (h : Z) :
  0 < c -> (0 <= h <= 1)%Z -> pow2 h * c <= o -> pow2 h <= round_val (o / c).
Proof.
  intros C Hh H.
  rewrite <- (round_val_pow2 h) by lia.
  apply round_val_mono. apply Qle_shift_div_l; assumption.
Qed.
(** The index [min(floor(q), 2)] of the rounded quotient [q] of [o] by [c]
    says in which third of the line [o] lies, the thirds being measured by
    [c] exactly. *)
Lemma index_thirds (o c q : Q) :
  is_float64 o -> is_float64 c -> 0 <= o -> 0 < c -> q = round_val (o / c) ->
  (Z.min (Qfloor q) 2 = 0%Z <-> o < c)
  /\ (Z.min (Qfloor q) 2 = 1%Z <-> c <= o /\ o < 2 * c)
  /\ (Z.min (Qfloor q) 2 = 2%Z <-> 2 * c <= o).
Proof.
  intros Fo Fc O C ->.
  assert (E0 : pow2 0 == 1) by reflexivity.
  assert (E1 : pow2 1 == 2) by reflexivity.
  set (q := round_val (o / c)).
  assert (Q0 : 0 <= q).
  { apply round_val_nonneg. apply Qle_shift_div_l; [exact C|]. lra. }
  assert (F0 : (0 <= Qfloor q)%Z) by (apply floor_ge; exact Q0).
  destruct (Qlt_le_dec o c) as [A|A].
  - assert (B : q < 1).
    { rewrite <- E0. apply quotient_below; trivial; try lia;
        rewrite E0; lra. }
    assert (Fq : Qfloor q = 0%Z) by (apply floor_eq; split; [exact Q0|exact B]).
    rewrite Fq. repeat split; intros; try lia; try lra.
  - assert (B : 1 <= q).
    { rewrite <- E0. apply quotient_above; trivial; try lia;
        rewrite E0; lra. }
    destruct (Qlt_le_dec o (2 * c)) as [A2|A2].
    + assert (B2 : q < 2).
      { rewrite <- E1. apply quotient_below; trivial; try lia;
          rewrite E1; exact A2. }
      assert (Fq : Qfloor q = 1%Z) by (apply floor_eq; split; [exact B|exact B2]).
      rewrite Fq. repeat split; intros; try lia; try lra.
    + assert (B2 : 2 <= q).
      { rewrite <- E1. apply quotient_above; trivial; try lia;
          rewrite E1; exact A2. }
      assert (Fq : (2 <= Qfloor q)%Z) by (apply floor_ge; exact B2).
      repeat split; intros; try lia; try lra.
Qed.

(** ** When a third of the span is zero *)

(** A positive float is at least [2^-1074], and the next one is
    [2 * 2^-1074]. *)
Lemma float_smallest (sv : Q) :
  is_float64 sv -> 0 < sv ->
  pow2 (-1074) <= sv /\ (~ sv == pow2 (-1074) -> 2 * pow2 (-1074) <= sv).
Proof.
  intros Fs P.
  destruct (float_grid sv Fs P) as (k & Ek).
  destruct (grid_coarser k (quantum sv) (-1074) (quantum_ge sv)) as (k' & Ek').
  assert (E : sv == inject_Z k' * pow2 (-1074)) by (rewrite Ek; exact Ek').
  assert (Z0 : 0 == inject_Z 0 * pow2 (-1074)) by ring.
  pose proof (grid_gap 0 sv (-1074) 0 k' Z0 E P) as G.
  split; [lra|].
  intro N.
  assert (L : pow2 (-1074) < sv).
  { destruct (Qlt_le_dec (pow2 (-1074)) sv) as [L|L]; [exact L|].
    exfalso. apply N. lra. }
  assert (O1 : pow2 (-1074) == inject_Z 1 * pow2 (-1074)) by ring.
  pose proof (grid_gap (pow2 (-1074)) sv (-1074) 1 k' O1 E L). lra.
Qed.

(** The third of a positive float rounds to zero for the smallest positive
    float only. *)
Lemma third_zero_iff (sv : Q) :
  is_float64 sv -> 0 < sv ->
  (round_val (sv / 3) == 0 <-> sv == pow2 (-1074)).
Proof.
  intros Fs P. split.
  - intro Z.
    destruct (Qeq_dec sv (pow2 (-1074))) as [E|N]; [exact E|exfalso].
    destruct (float_smallest sv Fs P) as [_ L]. specialize (L N).
    assert (M : (2 # 3) * pow2 (-1074) <= sv / 3) by (rewrite third_eq; lra).
    apply round_val_mono in M.
    assert (R : round_val ((2 # 3) * pow2 (-1074)) == pow2 (-1074))
      by (vm_compute; reflexivity).
    pose proof (pow2_pos (-1074)). lra.
  - intro E.
    rewrite (round_val_proper (sv / 3) (pow2 (-1074) / 3))
      by (rewrite E; reflexivity).
    vm_compute. reflexivity.
Qed.

(** A float that is not negative is a multiple of [2^-1074]. *)
Lemma float_on_grid (q : Q) :
  is_float64 q -> 0 <= q -> exists k : Z, q == inject_Z k * pow2 (-1074).
Proof.
  intros Fq P. destruct (Qlt_le_dec 0 q) as [L|L].
  - destruct (float_grid q Fq L) as (k & Ek).
    destruct (grid_coarser k (quantum q) (-1074) (quantum_ge q)) as (k' & Ek').
    exists k'. rewrite Ek. exact Ek'.
  - exists 0%Z. assert (E : q == 0) by lra. rewrite E. ring.
Qed.

(** The difference of two floats is not rounded to zero. *)
Lemma float_sub_pos (a b : Q) :
  is_float64 a -> is_float64 b -> 0 <= a -> a < b ->
  pow2 (-1074) <= round_val (b - a).
Proof.
  intros Fa Fb A H.
  destruct (float_on_grid a Fa A) as (ka & Ea).
  destruct (float_on_grid b Fb ltac:(lra)) as (kb & Eb).
  pose proof (grid_gap a b (-1074) ka kb Ea Eb H) as G.
  rewrite <- (round_val_pow2 (-1074)) at 1 by lia.
  apply round_val_mono. lra.
Qed.
(** ** Span, offset and quotient of an active term *)

(** For a longitude in [0,360) in the range of a term: span, a third of it
    and the offset are finite and not negative, and the span is positive;
    on the wrapping term the third is not zero; and the quotient is finite
    and not negative whenever the third is not zero. *)
Lemma active_term (longitude lon next_lon : Q) :
  lon_ok lon -> lon_ok next_lon -> 0 <= longitude -> longitude < 360 ->
  in_range lon next_lon longitude = true ->
  exists sv c o,
    term_span lon next_lon = F sv /\ is_float64 sv /\ 0 < sv
    /\ fdiv (F sv) (F 3) = F c /\ c = round_val (sv / 3)
    /\ is_float64 c /\ 0 <= c
    /\ term_offset longitude lon next_lon = F o /\ is_float64 o /\ 0 <= o
    /\ (Qlt_bool next_lon lon = true -> ~ c == 0)
    /\ (~ c == 0 ->
        exists q, fdiv (F o) (F c) = F q /\ q = round_val (o / c) /\ 0 <= q).
Proof.
  intros Hl Hn X0 X1 A.
  destruct (Qlt_bool next_lon lon) eqn:W.
  - destruct (wrap_span lon next_lon Hl Hn W)
      as (d & sv & c & Hd & Fd & Ld & Ud & Hs & Es & Fs & Ls & Us
          & Hc & Ec & Fc & Lc & Uc).
    destruct (wrap_offset longitude lon next_lon Hl W) as (o & Ho & Fo & Lo & Uo & Eo);
      try lra.
    pose proof (pow2_pos (-44)) as P44. pose proof (pow2_pos (-46)) as P46.
    assert (O : 0 <= o).
    { rewrite Eo. apply round_val_nonneg.
      destruct (Qle_bool lon longitude) eqn:E.
      - apply Qle_bool_iff in E. lra.
      - destruct (wrap_gap lon Hl) as (d' & Hd' & Ed' & _).
        rewrite Hd in Hd'. injection Hd' as Hdd.
        rewrite <- Ed', <- Hdd. lra. }
    exists sv, c, o.
    repeat split; trivial; try apply Fs; try apply Fc; try apply Fo; try lra.
    intros _. destruct (quotient_finite o c Lc Lo Uo) as (q & Hq & Eq & Pq).
    exists q. auto.
  - destruct (in_range_plain _ _ _ W A) as [A1 A2].
    destruct (plain_span lon next_lon Hl Hn W)
      as (sv & c & Hs & Es & Fs & Ls & Hc & Ec & Fc & Lc & H6).
    destruct (plain_offset longitude lon next_lon Hl Hn W A1 A2)
      as (o & Ho & Eo & Fo & Lo & Uo).
    assert (Ps : 0 < sv).
    { pose proof (float_sub_pos lon next_lon (proj1 Hl) (proj1 Hn)
                    (proj1 (proj2 Hl)) ltac:(lra)) as G.
      rewrite <- Es in G. pose proof (pow2_pos (-1074)). lra. }
    exists sv, c, o.
    repeat split; trivial; try apply Fs; try apply Fc; try apply Fo;
      try discriminate.
    intro NZ. specialize (H6 NZ). rewrite <- Es in Uo.
    assert (C0 : 0 < c).
    { destruct (Qlt_le_dec 0 c) as [P|P]; [exact P|].
      exfalso. apply NZ. lra. }
    pose proof pow2_3 as P3.
    destruct (round64_in0 (o / c) 3) as (q & Hq & Eq & Lq & Uq); try lia.
    + apply Qle_shift_div_l; [exact C0|]. lra.
    + apply Qle_shift_div_r; [exact C0|]. rewrite P3. lra.
    + exists q. simpl. auto.
Qed.

(** What [_find_ko_in_sekki] does on such a term: it raises
    [ZeroDivisionError] when a third of the span is zero, and otherwise
    returns the micro-season at [min(floor(q), 2)], for the quotient [q] of
    the offset by that third. *)
Lemma resolve_term (longitude : Q) (sekki : Sekki) (next_sekki_lon : Q) :
  lon_ok (sekki_longitude sekki) -> lon_ok next_sekki_lon ->
  List.length (sekki_ko sekki) = 3%nat ->
  0 <= longitude -> longitude < 360 ->
  in_range (sekki_longitude sekki) next_sekki_lon longitude = true ->
  exists sv c o,
    term_span (sekki_longitude sekki) next_sekki_lon = F sv
    /\ is_float64 sv /\ 0 < sv
    /\ fdiv (F sv) (F 3) = F c /\ c = round_val (sv / 3)
    /\ is_float64 c /\ 0 <= c
    /\ term_offset longitude (sekki_longitude sekki) next_sekki_lon = F o
    /\ is_float64 o /\ 0 <= o
    /\ (Qlt_bool next_sekki_lon (sekki_longitude sekki) = true -> ~ c == 0)
    /\ (c == 0 ->
        _find_ko_in_sekki longitude sekki next_sekki_lon
        = Raise ZeroDivisionError)
    /\ (~ c == 0 ->
        exists q k,
          fdiv (F o) (F c) = F q /\ q = round_val (o / c) /\ 0 <= q
          /\ _find_ko_in_sekki longitude sekki next_sekki_lon
             = Ok (sekki, k, Z.min (Qfloor q) 2)
          /\ (0 <= Z.min (Qfloor q) 2 <= 2)%Z
          /\ nth_error (sekki_ko sekki) (Z.to_nat (Z.min (Qfloor q) 2))
             = Some k).
Proof.
  intros Hl Hn Hlen X0 X1 A.
  destruct (active_term longitude _ _ Hl Hn X0 X1 A)
    as (sv & c & o & Hs & Fs & Ls & Hc & Ec & Fc & Lc & Ho & Fo & Lo & Hw & Hq).
  assert (Hd : py_div (term_span (sekki_longitude sekki) next_sekki_lon) (F 3)
               = Ok (F c)) by (rewrite py_div_three, Hs, Hc; reflexivity).
  exists sv, c, o. repeat split; trivial; try apply Fs; try apply Fc; try apply Fo.
  - intro Z. apply (find_ko_in_sekki_zero_span _ _ _ c); assumption.
  - intro NZ. destruct (Hq NZ) as (q & Dq & Eq & Pq).
    destruct (find_ko_in_sekki_finite longitude sekki next_sekki_lon c o q)
      as (k & Hr & Hi & Hk); trivial.
    exists q, k. repeat split; trivial; lia.
Qed.
(** ** Resolution on a well-formed table *)

(** An active term of a well-formed table is the only active one, and
    [find_current_ko] is [_find_ko_in_sekki] on that term. *)
Lemma resolve_at (data : Data) (longitude : Q) (i : nat) :
  well_formed data -> (i < 24)%nat -> active data longitude i = true ->
  (forall j, (j < 24)%nat -> active data longitude j = true -> j = i)
  /\ find_current_ko longitude data
     = _find_ko_in_sekki longitude (nth i (data_sekki data) dummy_sekki)
                         (next_lon_at data i).
Proof.
  intros Hwf Hi Hact.
  destruct (unique_active data longitude) as (i0 & Hi0 & Hact0 & Hu);
    [apply Hwf|].
  assert (i = i0) by (apply Hu; assumption). subst i0.
  split; [exact Hu|].
  apply (find_current_ko_unique data longitude (proj1 Hwf) i Hi Hact Hu).
Qed.

(** ** Examples *)

(** The term 立春 of the sample table (start 315, next start 330): index 0
    at 315 and at 319.9, index 1 at 320, index 2 at 329.99. *)
Example sample_risshun :
  find_current_ko 315 sample_data = Ok (sample_sekki 0, sample_ko 0 0, 0%Z)
  /\ find_current_ko (2813870157804339 # 8796093022208) sample_data
     = Ok (sample_sekki 0, sample_ko 0 0, 0%Z)
  /\ find_current_ko 320 sample_data = Ok (sample_sekki 0, sample_ko 0 1, 1%Z)
  /\ find_current_ko (1451311368199209 # 4398046511104) sample_data
     = Ok (sample_sekki 0, sample_ko 0 2, 2%Z).
Proof. repeat split; vm_compute; reflexivity. Qed.

(** Rounding decides the index: 0.3333333333333333 in the term from 0 to 1
    has index 1, and so has 350 in the term from 345 to 0, while
    -10.000000000000002, which is 350 after the addition of 360, has
    index 0 there. *)
Example rounding_decides :
  _find_ko_in_sekki below_third (sample_sekki 3) 1
  = Ok (sample_sekki 3, sample_ko 3 1, 1%Z)
  /\ find_current_ko 350 sample_data = Ok (sample_sekki 2, sample_ko 2 1, 1%Z)
  /\ find_current_ko (-5629499534213121 # 562949953421312) sample_data
     = Ok (sample_sekki 2, sample_ko 2 0, 0%Z)
  /\ fadd (F (-5629499534213121 # 562949953421312)) (F 360) = round64 350.
Proof. repeat split; vm_compute; reflexivity. Qed.

(** The exceptions of the arithmetic: a third of the span 5e-324 is 0.0;
    the quotient of the largest float by 0.6666666666666666 is [inf]; and
    -3.6666666666666665 in the term from 359 to 1 has the quotient -4.0. *)
Example arithmetic_exceptions :
  well_formed tiny_span_data
  /\ find_current_ko 0 tiny_span_data = Raise ZeroDivisionError
  /\ well_formed wrap_358_data
  /\ is_float64 max_float
  /\ find_current_ko max_float wrap_358_data = Raise OverflowError
  /\ well_formed wrap_359_data
  /\ find_current_ko (-8256599316845909 # 2251799813685248) wrap_359_data
     = Raise IndexError.
Proof.
  split; [apply well_formedb_spec; vm_compute; reflexivity|].
  split; [vm_compute; reflexivity|].
  split; [apply well_formedb_spec; vm_compute; reflexivity|].
  split; [apply is_float64b_spec; vm_compute; reflexivity|].
  split; [vm_compute; reflexivity|].
  split; [apply well_formedb_spec; vm_compute; reflexivity|].
  vm_compute. reflexivity.
Qed.

(** * The properties of the specification *)

(** ** Exactly one term *)

(** C1, counterexample.  [tiny_span_data] is well formed and 0 is in
    [0,360), yet [find_current_ko] returns no micro-season at longitude 0:
    the term from 0 to 5e-324 is active, a third of its span is 0.0, and
    the division by it raises [ZeroDivisionError]. *)
Lemma find_current_ko_zero_division :
  well_formed tiny_span_data
  /\ 0 <= 0 /\ 0 < 360
  /\ active tiny_span_data 0 3 = true
  /\ (exists c,
        fdiv (term_span (lon_at tiny_span_data 3) (next_lon_at tiny_span_data 3))
             (F 3) = F c /\ c == 0)
  /\ find_current_ko 0 tiny_span_data = Raise ZeroDivisionError
  /\ ~ exists (s : Sekki) (k : Ko) (ko_index : Z),
         find_current_ko 0 tiny_span_data = Ok (s, k, ko_index).
Proof.
  split; [apply well_formedb_spec; vm_compute; reflexivity|].
  split; [apply Qle_refl|]. split; [reflexivity|].
  split; [vm_compute; reflexivity|].
  split; [eexists; split; [vm_compute; reflexivity|reflexivity]|].
  assert (E : find_current_ko 0 tiny_span_data = Raise ZeroDivisionError)
    by (vm_compute; reflexivity).
  split; [exact E|].
  intros (s & k & i & H). rewrite E in H. discriminate H.
Qed.

(** C1, amended.  On a well-formed table (24 terms, each with a start
    longitude in [0,360) and exactly 3 micro-seasons, exactly one wrapping
    pair) and for every longitude in [0,360), exactly one term's range
    condition holds.  When a third of that term's span, in binary64, is not
    zero, [find_current_ko] returns that term, one of its 3 micro-seasons,
    and the position of this micro-season in the term; when it is zero,
    which is the case of the span 5e-324 only, [find_current_ko] raises
    [ZeroDivisionError]. *)
Theorem find_current_ko_exactly_one_term (data : Data) (longitude : Q) :
  well_formed data -> 0 <= longitude -> longitude < 360 ->
  exists (i : nat) (s : Sekki) (sv c : Q),
    (i < 24)%nat
    /\ nth_error (data_sekki data) i = Some s
    /\ active data longitude i = true
    /\ (forall j, (j < 24)%nat -> active data longitude j = true -> j = i)
    /\ List.length (sekki_ko s) = 3%nat
    /\ term_span (lon_at data i) (next_lon_at data i) = F sv
    /\ fdiv (F sv) (F 3) = F c
    /\ (c == 0 <-> sv == pow2 (-1074))
    /\ (c == 0 -> find_current_ko longitude data = Raise ZeroDivisionError)
    /\ (~ c == 0 ->
        exists (k : Ko) (ko_index : Z),
          find_current_ko longitude data = Ok (s, k, ko_index)
          /\ (0 <= ko_index <= 2)%Z
          /\ nth_error (sekki_ko s) (Z.to_nat ko_index) = Some k).
Proof.
  intros Hwf H0 H1.
  destruct (unique_active data longitude) as (i & Hi & Hact & _);
    [apply Hwf|].
  destruct (resolve_at data longitude i Hwf Hi Hact) as (Hu & Hr).
  destruct (well_formed_nth data i Hwf Hi) as ((Hlon & Hlen) & Hn).
  pose proof (well_formed_next_lon data i Hwf) as Hnext.
  destruct (resolve_term longitude _ _ Hlon Hnext Hlen H0 H1 Hact)
    as (sv & c & o & Hs & Fs & Ps & Hc & Ec & _ & _ & _ & _ & _ & _ & Hz & Hnz).
  exists i, (nth i (data_sekki data) dummy_sekki), sv, c.
  repeat (split; [assumption|]).
  split; [rewrite Ec; apply third_zero_iff; assumption|].
  split.
  - intro Z. rewrite Hr. exact (Hz Z).
  - intro NZ. destruct (Hnz NZ) as (q & k & _ & _ & _ & Hk & Hb & Hnk).
    exists k, (Z.min (Qfloor q) 2). rewrite Hr. auto.
Qed.

Lemma find_current_ko_exactly_one_term_witness :
  well_formed sample_data /\ 0 <= 320 /\ 320 < 360 /\
  exists (i : nat) (s : Sekki) (sv c : Q),
    (i < 24)%nat
    /\ nth_error (data_sekki sample_data) i = Some s
    /\ active sample_data 320 i = true
    /\ (forall j, (j < 24)%nat -> active sample_data 320 j = true -> j = i)
    /\ List.length (sekki_ko s) = 3%nat
    /\ term_span (lon_at sample_data i) (next_lon_at sample_data i) = F sv
    /\ fdiv (F sv) (F 3) = F c
    /\ (c == 0 <-> sv == pow2 (-1074))
    /\ (c == 0 -> find_current_ko 320 sample_data = Raise ZeroDivisionError)
    /\ (~ c == 0 ->
        exists (k : Ko) (ko_index : Z),
          find_current_ko 320 sample_data = Ok (s, k, ko_index)
          /\ (0 <= ko_index <= 2)%Z
          /\ nth_error (sekki_ko s) (Z.to_nat ko_index) = Some k).
Proof.
  assert (Hwf : well_formed sample_data) by exact sample_data_well_formed.
  assert (H0 : 0 <= 320) by (vm_compute; discriminate).
  assert (H1 : 320 < 360) by reflexivity.
  repeat (split; [assumption|]).
  exact (find_current_ko_exactly_one_term sample_data 320 Hwf H0 H1).
Defined.
(** ** No matching term: the fallback *)

Lemma no_matchb_spec (data : Data) (longitude : Q) :
  no_matchb data longitude = true -> no_match data longitude.
Proof.
  unfold no_matchb, no_match. intros H j Hj.
  rewrite forallb_forall in H.
  apply negb_true_iff. apply H. apply in_seq. lia.
Qed.

(** C2, counterexample.  On the flat table no term matches longitude 100,
    and [find_current_ko] raises nothing: it returns the first term with
    its first micro-season and index 0. *)
Lemma find_current_ko_no_match_returns :
  no_match flat_data 100
  /\ (forall e, find_current_ko 100 flat_data <> Raise e)
  /\ find_current_ko 100 flat_data
     = Ok (nth 0 (data_sekki flat_data) dummy_sekki, sample_ko 0 0, 0%Z).
Proof.
  split; [apply no_matchb_spec; vm_compute; reflexivity|].
  split; [intros e; vm_compute; discriminate|].
  vm_compute. reflexivity.
Qed.

(** C2, amended.  On a table of 24 terms, when no term's range condition
    holds [find_current_ko] returns the first term, its first micro-season
    and index 0; it raises [IndexError] only when the first term has no
    micro-season. *)
Theorem find_current_ko_no_match_fallback (data : Data) (longitude : Q) :
  List.length (data_sekki data) = 24%nat ->
  no_match data longitude ->
  exists s0, nth_error (data_sekki data) 0 = Some s0
    /\ find_current_ko longitude data
       = match sekki_ko s0 with
         | k0 :: _ => Ok (s0, k0, 0%Z)
         | [] => Raise IndexError
         end.
Proof.
  intros Hl Hno.
  rewrite (find_current_ko_fallback data longitude Hl Hno).
  pose proof (py_index_nth (data_sekki data) 0 dummy_sekki ltac:(lia)) as P.
  change (Z.of_nat 0) with 0%Z in P.
  exists (nth 0 (data_sekki data) dummy_sekki).
  split; [apply nth_error_nth'; lia|].
  rewrite P. simpl.
  destruct (sekki_ko _) as [|k0 l] eqn:E; [reflexivity|].
  pose proof (py_index_nth (k0 :: l) 0 k0 ltac:(simpl; lia)) as P'.
  change (Z.of_nat 0) with 0%Z in P'. rewrite P'. reflexivity.
Qed.

Lemma find_current_ko_no_match_fallback_witness :
  List.length (data_sekki flat_data) = 24%nat /\ no_match flat_data 100 /\
  exists s0, nth_error (data_sekki flat_data) 0 = Some s0
    /\ find_current_ko 100 flat_data
       = match sekki_ko s0 with
         | k0 :: _ => Ok (s0, k0, 0%Z)
         | [] => Raise IndexError
         end.
Proof.
  assert (Hl : List.length (data_sekki flat_data) = 24%nat) by reflexivity.
  assert (Hno : no_match flat_data 100)
    by (apply no_matchb_spec; vm_compute; reflexivity).
  repeat (split; [assumption|]).
  exact (find_current_ko_no_match_fallback flat_data 100 Hl Hno).
Defined.

(** ** Loading *)

(** C3, counterexample.  A document of 23 terms, and a document whose first
    term has 2 micro-seasons, are loaded without error, and resolution
    proceeds on them. *)
Lemma load_sekki_data_accepts_malformed_tables :
  List.length (data_sekki short_data) = 23%nat
  /\ load_sekki_data (Document short_data) = Ok short_data
  /\ find_current_ko 320 short_data = Ok (sample_sekki 0, sample_ko 0 1, 1%Z)
  /\ List.length (sekki_ko (nth 0 (data_sekki two_ko_data) dummy_sekki)) = 2%nat
  /\ load_sekki_data (Document two_ko_data) = Ok two_ko_data
  /\ find_current_ko 335 two_ko_data = Ok (sample_sekki 1, sample_ko 1 1, 1%Z).
Proof.
  repeat split; vm_compute; reflexivity.
Qed.

(** C3, amended.  [load_sekki_data] fails exactly when the backing file is
    missing or is not a JSON document, with the exception of [open] or of
    [json.load]; it validates nothing, and returns every parsed document as
    it is, whatever its number of terms or of micro-seasons. *)
Theorem load_sekki_data_no_validation :
  (forall b : backing,
      (exists e, load_sekki_data b = Raise e) <-> b = Missing \/ b = Malformed)
  /\ load_sekki_data Missing = Raise FileNotFoundError
  /\ load_sekki_data Malformed = Raise JSONDecodeError
  /\ (forall d : Data, load_sekki_data (Document d) = Ok d).
Proof.
  repeat split; trivial.
  - intros [e He]. destruct b; simpl in He; auto. discriminate He.
  - intros [-> | ->]; eexists; reflexivity.
Qed.


(** ** The wrapping term *)



(** ** Lower bounds *)

(** The offset at the start of a term is zero. *)
Lemma start_offset (lon next_lon : Q) : term_offset lon lon next_lon = F 0.
Proof.
  assert (E : fsub (F lon) (F lon) = F 0).
  { simpl. apply round64_zero. ring. }
  unfold term_offset. destruct (Qlt_bool next_lon lon); [|exact E].
  replace (Qle_bool lon lon) with true; [exact E|].
  symmetry. apply Qle_bool_iff. apply Qle_refl.
Qed.

(** C5, counterexample.  [tiny_span_data] is well formed, its term 3 starts
    at 0 and has a range that is not empty (the next term starts at
    5e-324), yet at longitude 0 [find_current_ko] does not select term 3:
    it raises [ZeroDivisionError]. *)
Lemma lower_bound_not_selected_on_tiny_term :
  well_formed tiny_span_data
  /\ lon_at tiny_span_data 3 == 0
  /\ lon_at tiny_span_data 3 < next_lon_at tiny_span_data 3
  /\ active tiny_span_data (lon_at tiny_span_data 3) 3 = true
  /\ find_current_ko (lon_at tiny_span_data 3) tiny_span_data
     = Raise ZeroDivisionError
  /\ ~ selects tiny_span_data (lon_at tiny_span_data 3) 3.
Proof.
  split; [apply well_formedb_spec; vm_compute; reflexivity|].
  split; [reflexivity|]. split; [reflexivity|].
  split; [vm_compute; reflexivity|].
  assert (E : find_current_ko (lon_at tiny_span_data 3) tiny_span_data
              = Raise ZeroDivisionError) by (vm_compute; reflexivity).
  split; [exact E|].
  intros (k & i & H). rewrite E in H. discriminate H.
Qed.

(** C5, amended.  On a well-formed table, when the longitude is exactly the
    start of a term [i] whose range is not empty (its start differs from the
    start of the next term), the range condition of term [i] holds and that
    of no other term, in particular not that of the preceding term.  When a
    third of the span of term [i], in binary64, is not zero,
    [find_current_ko] returns term [i] with its first micro-season and
    index 0; when it is zero, which is the case of the span 5e-324 only,
    it raises [ZeroDivisionError]. *)
Theorem lower_bound_inclusive (data : Data) (i : nat) :
  well_formed data -> (i < 24)%nat ->
  ~ lon_at data i == next_lon_at data i ->
  active data (lon_at data i) i = true
  /\ active data (lon_at data i) ((i + 23) mod 24) = false
  /\ (forall j, (j < 24)%nat -> active data (lon_at data i) j = true -> j = i)
  /\ exists sv c : Q,
       term_span (lon_at data i) (next_lon_at data i) = F sv
       /\ fdiv (F sv) (F 3) = F c
       /\ (c == 0 <-> sv == pow2 (-1074))
       /\ (c == 0 ->
           find_current_ko (lon_at data i) data = Raise ZeroDivisionError)
       /\ (~ c == 0 ->
           exists k : Ko,
             find_current_ko (lon_at data i) data
             = Ok (nth i (data_sekki data) dummy_sekki, k, 0%Z)
             /\ nth_error (sekki_ko (nth i (data_sekki data) dummy_sekki)) 0
                = Some k).
Proof.
  intros Hwf Hi Hne.
  pose proof (start_active data i Hne) as Hact.
  pose proof (well_formed_lon data i Hwf Hi) as Hlon.
  pose proof (well_formed_next_lon data i Hwf) as Hnext.
  destruct (well_formed_nth data i Hwf Hi) as ((_ & Hlen) & Hn).
  destruct (resolve_at data _ i Hwf Hi Hact) as (Hu & Hr).
  split; [exact Hact|]. split.
  { destruct (active data (lon_at data i) ((i + 23) mod 24)) eqn:E; [|reflexivity].
    exfalso. apply (pred_mod_neq i Hi). apply Hu; [|exact E].
    apply Nat.mod_upper_bound. lia. }
  split; [exact Hu|].
  destruct Hlon as (Fl & L0 & L1).
  destruct (resolve_term (lon_at data i) _ _ (conj Fl (conj L0 L1)) Hnext Hlen
              L0 L1 Hact)
    as (sv & c & o & Hs & Fs & Ps & Hc & Ec & Fc & Lc & Ho & Fo & Lo & _ & Hz & Hok).
  exists sv, c. split; [exact Hs|]. split; [exact Hc|].
  split; [rewrite Ec; apply third_zero_iff; assumption|].
  split; [intro Z; rewrite Hr; exact (Hz Z)|].
  intro NZ. destruct (Hok NZ) as (q & k & _ & Eq & _ & Hk & _ & Hnk).
  fold (lon_at data i) in Ho. rewrite start_offset in Ho. injection Ho as <-.
  assert (C0 : 0 < c).
  { destruct (Qlt_le_dec 0 c) as [P|P]; [exact P|]. exfalso. apply NZ. lra. }
  assert (Z0 : Z.min (Qfloor q) 2 = 0%Z).
  { destruct (index_thirds 0 c q (is_float64b_spec 0 eq_refl) Fc
                (Qle_refl 0) C0 Eq) as (I0 & _).
    apply I0. exact C0. }
  rewrite Z0 in Hk, Hnk. exists k. rewrite Hr. split; assumption.
Qed.

Lemma lower_bound_inclusive_witness :
  well_formed sample_data /\ (3 < 24)%nat /\
  ~ lon_at sample_data 3 == next_lon_at sample_data 3 /\
  active sample_data (lon_at sample_data 3) 3 = true
  /\ active sample_data (lon_at sample_data 3) ((3 + 23) mod 24) = false
  /\ (forall j, (j < 24)%nat ->
                active sample_data (lon_at sample_data 3) j = true -> j = 3%nat)
  /\ exists sv c : Q,
       term_span (lon_at sample_data 3) (next_lon_at sample_data 3) = F sv
       /\ fdiv (F sv) (F 3) = F c
       /\ (c == 0 <-> sv == pow2 (-1074))
       /\ (c == 0 ->
           find_current_ko (lon_at sample_data 3) sample_data
           = Raise ZeroDivisionError)
       /\ (~ c == 0 ->
           exists k : Ko,
             find_current_ko (lon_at sample_data 3) sample_data
             = Ok (nth 3 (data_sekki sample_data) dummy_sekki, k, 0%Z)
             /\ nth_error (sekki_ko (nth 3 (data_sekki sample_data) dummy_sekki)) 0
                = Some k).
Proof.
  assert (Hwf : well_formed sample_data) by exact sample_data_well_formed.
  assert (Hi : (3 < 24)%nat) by lia.
  assert (Hne : ~ lon_at sample_data 3 == next_lon_at sample_data 3)
    by (vm_compute; discriminate).
  repeat (split; [assumption|]).
  exact (lower_bound_inclusive sample_data 3 Hwf Hi Hne).
Defined.

(** ** The micro-season index *)

(** C6, counterexample.  In the term from 0 to 1 the longitude
    0.3333333333333333 has an offset below a third of the span ([floor] of
    the exact quotient is 0), yet [_find_ko_in_sekki] returns index 1: a
    third of the span is the float 0.3333333333333333 itself.  And in the
    term from 0 to 5e-324 no index is returned at longitude 0:
    [ZeroDivisionError] is raised. *)
Lemma ko_index_not_exact_thirds :
  (sekki_longitude (sample_sekki 3) == 0
   /\ in_range (sekki_longitude (sample_sekki 3)) 1 below_third = true
   /\ below_third - 0 < (1 - 0) / 3
   /\ Z.min (Qfloor ((below_third - 0) / ((1 - 0) / 3))) 2 = 0%Z
   /\ _find_ko_in_sekki below_third (sample_sekki 3) 1
      = Ok (sample_sekki 3, sample_ko 3 1, 1%Z))
  /\ (in_range (lon_at tiny_span_data 3) (next_lon_at tiny_span_data 3) 0 = true
      /\ _find_ko_in_sekki 0 (nth 3 (data_sekki tiny_span_data) dummy_sekki)
                           (next_lon_at tiny_span_data 3)
         = Raise ZeroDivisionError).
Proof.
  repeat split; vm_compute; reflexivity.
Qed.

(** C6, amended.  For a longitude in [0,360) in the range of a term whose
    start and next start are floats in [0,360), the span ([next - start],
    or [(360 - start) + next] for the wrapping term), the offset of the
    longitude from the start and a third of the span are finite binary64
    values, not negative.  When that third, [c], is zero,
    [_find_ko_in_sekki] raises [ZeroDivisionError].  Otherwise it returns
    the index [min(floor(q), 2)], for the binary64 quotient [q] of the
    offset by [c]; the index is at most 2, it is 0 exactly when
    [offset < c], 1 exactly when [c <= offset < 2 c], and 2 exactly when
    [2 c <= offset]. *)
Theorem ko_index_partition (longitude : Q) (sekki : Sekki) (next_sekki_lon : Q) :
  lon_ok (sekki_longitude sekki) -> lon_ok next_sekki_lon ->
  List.length (sekki_ko sekki) = 3%nat ->
  0 <= longitude -> longitude < 360 ->
  in_range (sekki_longitude sekki) next_sekki_lon longitude = true ->
  let lon := sekki_longitude sekki in
  let span :=
    if Qlt_bool next_sekki_lon lon
    then fadd (fsub (F 360) (F lon)) (F next_sekki_lon)
    else fsub (F next_sekki_lon) (F lon) in
  let offset :=
    if Qlt_bool next_sekki_lon lon
    then if Qle_bool lon longitude
         then fsub (F longitude) (F lon)
         else fadd (fsub (F 360) (F lon)) (F longitude)
    else fsub (F longitude) (F lon) in
  exists sv o c : Q,
    span = F sv /\ 0 < sv
    /\ offset = F o /\ 0 <= o
    /\ fdiv span (F 3) = F c /\ 0 <= c
    /\ (c == 0 ->
        _find_ko_in_sekki longitude sekki next_sekki_lon
        = Raise ZeroDivisionError)
    /\ (~ c == 0 ->
        exists (q : Q) (k : Ko) (ko_index : Z),
          fdiv offset (F c) = F q
          /\ ko_index = Z.min (Qfloor q) 2
          /\ _find_ko_in_sekki longitude sekki next_sekki_lon
             = Ok (sekki, k, ko_index)
          /\ (ko_index <= 2)%Z
          /\ nth_error (sekki_ko sekki) (Z.to_nat ko_index) = Some k
          /\ (ko_index = 0%Z <-> 0 * c <= o /\ o < 1 * c)
          /\ (ko_index = 1%Z <-> 1 * c <= o /\ o < 2 * c)
          /\ (ko_index = 2%Z <-> 2 * c <= o)).
Proof.
  intros Hlon Hnext Hlen H0 H1 Hact lon span offset.
  destruct (resolve_term longitude _ _ Hlon Hnext Hlen H0 H1 Hact)
    as (sv & c & o & Hs & Fs & Ps & Hc & Ec & Fc & Lc & Ho & Fo & Lo & _ & Hz & Hok).
  change span with (term_span lon next_sekki_lon).
  change offset with (term_offset longitude lon next_sekki_lon).
  fold lon in Hs, Ho. rewrite Hs, Ho.
  exists sv, o, c.
  split; [reflexivity|]. split; [exact Ps|].
  split; [reflexivity|]. split; [exact Lo|].
  split; [exact Hc|]. split; [exact Lc|].
  split; [exact Hz|].
  intro NZ. destruct (Hok NZ) as (q & k & Dq & Eq & _ & Hk & Hb & Hnk).
  assert (C0 : 0 < c).
  { destruct (Qlt_le_dec 0 c) as [P|P]; [exact P|]. exfalso. apply NZ. lra. }
  destruct (index_thirds o c q Fo Fc Lo C0 Eq) as (I0 & I1 & I2).
  exists q, k, (Z.min (Qfloor q) 2).
  split; [exact Dq|]. split; [reflexivity|]. split; [exact Hk|].
  split; [lia|]. split; [exact Hnk|].
  split; [|split].
  - rewrite I0. split; [intro; split; lra|intros [_ ?]; lra].
  - rewrite I1. split; intros [? ?]; split; lra.
  - exact I2.
Qed.

Lemma ko_index_partition_witness :
  lon_ok (sekki_longitude (sample_sekki 0)) /\ lon_ok 330 /\
  List.length (sekki_ko (sample_sekki 0)) = 3%nat /\
  0 <= 320 /\ 320 < 360 /\
  in_range (sekki_longitude (sample_sekki 0)) 330 320 = true /\
  let lon := sekki_longitude (sample_sekki 0) in
  let span :=
    if Qlt_bool 330 lon
    then fadd (fsub (F 360) (F lon)) (F 330)
    else fsub (F 330) (F lon) in
  let offset :=
    if Qlt_bool 330 lon
    then if Qle_bool lon 320
         then fsub (F 320) (F lon)
         else fadd (fsub (F 360) (F lon)) (F 320)
    else fsub (F 320) (F lon) in
  exists sv o c : Q,
    span = F sv /\ 0 < sv
    /\ offset = F o /\ 0 <= o
    /\ fdiv span (F 3) = F c /\ 0 <= c
    /\ (c == 0 ->
        _find_ko_in_sekki 320 (sample_sekki 0) 330 = Raise ZeroDivisionError)
    /\ (~ c == 0 ->
        exists (q : Q) (k : Ko) (ko_index : Z),
          fdiv offset (F c) = F q
          /\ ko_index = Z.min (Qfloor q) 2
          /\ _find_ko_in_sekki 320 (sample_sekki 0) 330
             = Ok (sample_sekki 0, k, ko_index)
          /\ (ko_index <= 2)%Z
          /\ nth_error (sekki_ko (sample_sekki 0)) (Z.to_nat ko_index) = Some k
          /\ (ko_index = 0%Z <-> 0 * c <= o /\ o < 1 * c)
          /\ (ko_index = 1%Z <-> 1 * c <= o /\ o < 2 * c)
          /\ (ko_index = 2%Z <-> 2 * c <= o)).
Proof.
  assert (H1 : lon_ok (sekki_longitude (sample_sekki 0))).
  { split; [apply is_float64b_spec; vm_compute; reflexivity|].
    split; [vm_compute; discriminate|reflexivity]. }
  assert (H2 : lon_ok 330).
  { split; [apply is_float64b_spec; vm_compute; reflexivity|].
    split; [vm_compute; discriminate|reflexivity]. }
  assert (H3 : List.length (sekki_ko (sample_sekki 0)) = 3%nat) by reflexivity.
  assert (H4 : 0 <= 320) by (vm_compute; discriminate).
  assert (H5 : 320 < 360) by reflexivity.
  assert (H6 : in_range (sekki_longitude (sample_sekki 0)) 330 320 = true)
    by reflexivity.
  repeat (split; [assumption|]).
  exact (ko_index_partition 320 (sample_sekki 0) 330 H1 H2 H3 H4 H5 H6).
Defined.

(** ** Longitudes outside [0,360) *)

(** C7, counterexample.  [tiny_span_data] is well formed and its wrapping
    pair ends at next start 0; the term that follows the wrapping term
    (term 3) has a range that is not empty and that contains 0, yet
    [find_current_ko] at longitude 0 does not return it: it raises
    [ZeroDivisionError]. *)
Lemma zero_not_resolved_on_tiny_follower :
  well_formed tiny_span_data
  /\ wraps tiny_span_data 2 = true
  /\ next_lon_at tiny_span_data 2 == 0
  /\ ~ next_lon_at tiny_span_data ((2 + 1) mod 24) == 0
  /\ active tiny_span_data 0 ((2 + 1) mod 24) = true
  /\ find_current_ko 0 tiny_span_data = Raise ZeroDivisionError
  /\ ~ selects tiny_span_data 0 ((2 + 1) mod 24).
Proof.
  split; [apply well_formedb_spec; vm_compute; reflexivity|].
  split; [reflexivity|]. split; [reflexivity|].
  split; [vm_compute; discriminate|].
  split; [vm_compute; reflexivity|].
  assert (E : find_current_ko 0 tiny_span_data = Raise ZeroDivisionError)
    by (vm_compute; reflexivity).
  split; [exact E|].
  intros (k & i & H). rewrite E in H. discriminate H.
Qed.

(** At longitude 360 the wrapping term of a table whose wrapping pair ends
    at 0 has an offset equal to its span, and index 2. *)
Lemma full_span_index (sekki : Sekki) (next_sekki_lon : Q) :
  lon_ok (sekki_longitude sekki) -> lon_ok next_sekki_lon ->
  Qlt_bool next_sekki_lon (sekki_longitude sekki) = true ->
  next_sekki_lon == 0 ->
  List.length (sekki_ko sekki) = 3%nat ->
  exists sv o k,
    term_span (sekki_longitude sekki) next_sekki_lon = F sv
    /\ fsub (F 360) (F (sekki_longitude sekki)) = F o
    /\ o == sv
    /\ _find_ko_in_sekki 360 sekki next_sekki_lon = Ok (sekki, k, 2%Z)
    /\ nth_error (sekki_ko sekki) 2 = Some k.
Proof.
  intros Hl Hn W Z Hlen.
  destruct (wrap_span _ _ Hl Hn W)
    as (d & sv & c & Hd & Fd & Ld & Ud & Hs & Es & Fs & Ls & Us
        & Hc & Ec & Fc & Lc & Uc).
  pose proof (pow2_pos (-44)) as P44. pose proof (pow2_pos (-46)) as P46.
  assert (Esd : sv == d).
  { rewrite Es. rewrite (round_val_proper (d + next_sekki_lon) d)
      by (rewrite Z; ring). apply Fd. }
  assert (P3 : 0 < sv / 3) by (rewrite third_eq; lra).
  assert (T : pow2 (-1074) <= sv / 3).
  { rewrite third_eq.
    apply (Qle_trans _ (pow2 (-46))); [apply pow2_le; lia|].
    assert (E46 : pow2 (-46) == (1 # 4) * pow2 (-44)).
    { setoid_replace (pow2 (-46)) with (pow2 (-2 + -44)) by reflexivity.
      rewrite pow2_add. reflexivity. }
    lra. }
  pose proof (round_mag_upper _ T) as Up.
  pose proof (round_mag_lower _ T) as Lo.
  rewrite <- (round_val_pos _ P3), <- Ec, third_eq in Up, Lo.
  assert (C0 : 0 < c) by lra.
  assert (E1 : pow2 1 == 2) by reflexivity.
  assert (E3 : pow2 3 == 8) by reflexivity.
  destruct (round64_in (d / c) 1 3) as (q & Hq & Eq & Lq & Uq); try lia.
  { apply Qle_shift_div_l; [exact C0|]. rewrite E1. lra. }
  { apply Qle_shift_div_r; [exact C0|]. rewrite E3. lra. }
  assert (Ho : term_offset 360 (sekki_longitude sekki) next_sekki_lon = F d).
  { unfold term_offset. rewrite W.
    replace (Qle_bool (sekki_longitude sekki) 360) with true; [exact Hd|].
    symmetry. apply Qle_bool_iff. destruct Hl as (_ & _ & ?). lra. }
  destruct (find_ko_in_sekki_finite 360 sekki next_sekki_lon c d q)
    as (k & Hr & _ & Hk); trivial.
  { rewrite py_div_three, Hs, Hc. reflexivity. }
  { lra. }
  { lra. }
  assert (F2 : (2 <= Qfloor q)%Z) by (apply floor_ge; rewrite <- E1; exact Lq).
  replace (Z.min (Qfloor q) 2) with 2%Z in Hr, Hk by lia.
  exists sv, d, k. repeat split; trivial. symmetry. exact Esd.
Qed.

(** C7, amended.  [find_current_ko] reduces nothing modulo 360.  On a
    well-formed table whose wrapping pair [w] ends at next start 0:
    longitude 360 matches the wrapping term through [longitude >= start],
    with the offset equal to the whole span and the index clamped to 2;
    longitude 0 is in the range of another term, which starts at 0, and
    which is the term that follows the wrapping term when the range of that
    follower is not empty; [find_current_ko] returns it with index 0, or
    raises [ZeroDivisionError] when a third of its span is zero in binary64
    (the span 5e-324); so the results at 360 and at [360 % 360 = 0]
    differ. *)
Theorem no_normalization (data : Data) (w : nat) :
  well_formed data -> (w < 24)%nat -> wraps data w = true ->
  next_lon_at data w == 0 ->
  (exists k sv o,
      find_current_ko 360 data = Ok (nth w (data_sekki data) dummy_sekki, k, 2%Z)
      /\ nth_error (sekki_ko (nth w (data_sekki data) dummy_sekki)) 2 = Some k
      /\ Qle_bool (lon_at data w) 360 = true
      /\ fsub (F 360) (F (lon_at data w)) = F o
      /\ fadd (fsub (F 360) (F (lon_at data w))) (F (next_lon_at data w)) = F sv
      /\ o == sv)
  /\ (exists j svj cj,
         (j < 24)%nat /\ j <> w /\ lon_at data j == 0
         /\ active data 0 j = true
         /\ (~ next_lon_at data ((w + 1) mod 24) == 0 -> j = ((w + 1) mod 24)%nat)
         /\ term_span (lon_at data j) (next_lon_at data j) = F svj
         /\ fdiv (F svj) (F 3) = F cj
         /\ (cj == 0 <-> svj == pow2 (-1074))
         /\ (cj == 0 -> find_current_ko 0 data = Raise ZeroDivisionError)
         /\ (~ cj == 0 ->
             exists k,
               find_current_ko 0 data
               = Ok (nth j (data_sekki data) dummy_sekki, k, 0%Z)
               /\ nth_error (sekki_ko (nth j (data_sekki data) dummy_sekki)) 0
                  = Some k))
  /\ 360 <= 360
  /\ py_mod_360 360 = F 0
  /\ find_current_ko 360 data <> find_current_ko 0 data.
Proof.
  intros Hwf Hw W Hn.
  pose proof (well_formed_lon data w Hwf Hw) as Hlon.
  pose proof (well_formed_next_lon data w Hwf) as Hnext.
  destruct (well_formed_nth data w Hwf Hw) as ((_ & Hlen) & _).
  pose proof W as W'. unfold wraps in W'.
  (* longitude 360 *)
  assert (Hle : Qle_bool (lon_at data w) 360 = true).
  { apply Qle_bool_iff. destruct Hlon as (_ & _ & ?). lra. }
  assert (A360 : active data 360 w = true).
  { unfold active, in_range. rewrite W', Hle. reflexivity. }
  destruct (resolve_at data 360 w Hwf Hw A360) as (_ & Hr).
  destruct (full_span_index (nth w (data_sekki data) dummy_sekki)
              (next_lon_at data w) Hlon Hnext W' Hn Hlen)
    as (sv & o & k & Hs & Ho & Eos & Hk & Hnk).
  rewrite <- Hr in Hk.
  (* longitude 0 *)
  destruct (unique_active data 0) as (j & Hj & Aj & Uj); [apply Hwf|].
  destruct (resolve_at data 0 j Hwf Hj Aj) as (_ & Hr0).
  assert (A0w : active data 0 w = false).
  { unfold active, in_range. rewrite W'.
    apply orb_false_iff. split.
    - apply Qle_bool_false. apply Qlt_bool_iff in W'. lra.
    - apply Qlt_bool_false. lra. }
  assert (Hjw : j <> w) by (intros ->; congruence).
  assert (Wj : wraps data j = false).
  { destruct (wraps data j) eqn:E; [|reflexivity].
    exfalso. apply Hjw. apply (unique_wrap data w j); assumption. }
  pose proof (well_formed_lon data j Hwf Hj) as Hlonj.
  pose proof (well_formed_next_lon data j Hwf) as Hnextj.
  destruct (well_formed_nth data j Hwf Hj) as ((_ & Hlenj) & _).
  unfold wraps in Wj.
  destruct (in_range_plain _ _ _ Wj Aj) as [B1 B2].
  assert (Lj : lon_at data j == 0) by (destruct Hlonj as (_ & ? & _); lra).
  destruct (resolve_term 0 _ _ Hlonj Hnextj Hlenj (Qle_refl 0) ltac:(reflexivity) Aj)
    as (svj & cj & oj & Hsj & Fsj & Psj & Hcj & Ecj & Fcj & Lcj & Hoj & Foj & Loj
        & _ & Hzj & Hokj).
  fold (lon_at data j) in Hsj, Hoj.
  assert (Oj : oj == 0).
  { unfold term_offset in Hoj. rewrite Wj in Hoj. simpl in Hoj.
    rewrite (round64_zero (0 - lon_at data j)) in Hoj by lra.
    injection Hoj as <-. reflexivity. }
  assert (R0 : ~ cj == 0 ->
               exists k0,
                 find_current_ko 0 data
                 = Ok (nth j (data_sekki data) dummy_sekki, k0, 0%Z)
                 /\ nth_error (sekki_ko (nth j (data_sekki data) dummy_sekki)) 0
                    = Some k0).
  { intro NZ. destruct (Hokj NZ) as (q & k0 & _ & Eq & _ & Hk0 & _ & Hnk0).
    assert (C0 : 0 < cj).
    { destruct (Qlt_le_dec 0 cj) as [P|P]; [exact P|]. exfalso. apply NZ. lra. }
    destruct (index_thirds oj cj q Foj Fcj Loj C0 Eq) as (I0 & _).
    assert (Z0 : Z.min (Qfloor q) 2 = 0%Z) by (apply I0; lra).
    rewrite Z0 in Hk0, Hnk0. exists k0. rewrite Hr0. split; assumption. }
  split.
  { exists k, sv, o. unfold term_span in Hs.
    fold (lon_at data w) in Hs, Ho. rewrite W' in Hs.
    repeat split; assumption. }
  split.
  { exists j, svj, cj.
    split; [exact Hj|]. split; [exact Hjw|]. split; [exact Lj|].
    split; [exact Aj|]. split.
    { intro Hne. symmetry. apply Uj; [apply Nat.mod_upper_bound; lia|].
      set (f := ((w + 1) mod 24)%nat) in *.
      assert (Hf : (f < 24)%nat) by (apply Nat.mod_upper_bound; lia).
      assert (Wf : wraps data f = false).
      { destruct (wraps data f) eqn:E; [|reflexivity].
        exfalso. apply (succ_mod_neq w Hw).
        apply (unique_wrap data w f); assumption. }
      unfold wraps in Wf. unfold active, in_range. rewrite Wf.
      change (lon_at data f) with (next_lon_at data w) in *.
      apply andb_true_iff. split.
      + apply Qle_bool_iff. lra.
      + apply Qlt_bool_iff. apply Qlt_bool_false in Wf.
        destruct (Qlt_le_dec 0 (next_lon_at data f)); [assumption|].
        exfalso. apply Hne. lra. }
    split; [exact Hsj|]. split; [exact Hcj|].
    split; [rewrite Ecj; apply third_zero_iff; assumption|].
    split; [intro Z; rewrite Hr0; exact (Hzj Z)|exact R0]. }
  split; [apply Qle_refl|]. split; [reflexivity|].
  rewrite Hk. intro E.
  destruct (Qeq_dec cj 0) as [Z|NZ].
  - rewrite Hr0, (Hzj Z) in E. discriminate E.
  - destruct (R0 NZ) as (k0 & E0 & _). rewrite E0 in E. inversion E.
Qed.

Lemma no_normalization_witness :
  well_formed sample_data /\ (2 < 24)%nat /\ wraps sample_data 2 = true /\
  next_lon_at sample_data 2 == 0 /\
  (exists k sv o,
      find_current_ko 360 sample_data
      = Ok (nth 2 (data_sekki sample_data) dummy_sekki, k, 2%Z)
      /\ nth_error (sekki_ko (nth 2 (data_sekki sample_data) dummy_sekki)) 2 = Some k
      /\ Qle_bool (lon_at sample_data 2) 360 = true
      /\ fsub (F 360) (F (lon_at sample_data 2)) = F o
      /\ fadd (fsub (F 360) (F (lon_at sample_data 2)))
              (F (next_lon_at sample_data 2)) = F sv
      /\ o == sv)
  /\ (exists j svj cj,
         (j < 24)%nat /\ j <> 2%nat /\ lon_at sample_data j == 0
         /\ active sample_data 0 j = true
         /\ (~ next_lon_at sample_data ((2 + 1) mod 24) == 0
             -> j = ((2 + 1) mod 24)%nat)
         /\ term_span (lon_at sample_data j) (next_lon_at sample_data j) = F svj
         /\ fdiv (F svj) (F 3) = F cj
         /\ (cj == 0 <-> svj == pow2 (-1074))
         /\ (cj == 0 -> find_current_ko 0 sample_data = Raise ZeroDivisionError)
         /\ (~ cj == 0 ->
             exists k,
               find_current_ko 0 sample_data
               = Ok (nth j (data_sekki sample_data) dummy_sekki, k, 0%Z)
               /\ nth_error (sekki_ko (nth j (data_sekki sample_data) dummy_sekki)) 0
                  = Some k))
  /\ 360 <= 360
  /\ py_mod_360 360 = F 0
  /\ find_current_ko 360 sample_data <> find_current_ko 0 sample_data.
Proof.
  assert (Hwf : well_formed sample_data) by exact sample_data_well_formed.
  assert (Hw : (2 < 24)%nat) by lia.
  assert (W : wraps sample_data 2 = true) by reflexivity.
  assert (Hn : next_lon_at sample_data 2 == 0) by reflexivity.
  repeat (split; [assumption|]).
  exact (no_normalization sample_data 2 Hwf Hw W Hn).
Defined.

(** ** In-bounds access to the micro-season list *)



(** ** The message *)

Lemma string_app_assoc (a b c : string) :
  ((a ++ b) ++ c = a ++ (b ++ c))%string.
Proof.
  induction a as [|ch a IH]; simpl; [reflexivity|]. rewrite IH. reflexivity.
Qed.

Lemma contains_here (sub rest : string) : contains (sub ++ rest) sub.
Proof. exists ""%string, rest. reflexivity. Qed.

Lemma contains_later (p t sub : string) :
  contains t sub -> contains (p ++ t) sub.
Proof.
  intros (pre & post & ->). exists (p ++ pre)%string, post.
  rewrite string_app_assoc. reflexivity.
Qed.

Ltac find_piece :=
  first [ apply contains_here | apply contains_later; find_piece ].

Lemma ko_names_label (ko_index : Z) :
  (0 <= ko_index <= 2)%Z ->
  exists label, py_index ko_names ko_index = Ok label
                /\ nth_error ko_names (Z.to_nat ko_index) = Some label.
Proof.
  intro H. apply py_index_three; [reflexivity|exact H].
Qed.

(** C9.  For every date, term, micro-season and index among 0, 1, 2,
    [format_message] returns a string in which occur, as they are, the
    formatted date, the name of the term, the name, the reading and the
    emoji of the micro-season, and the phase label of the index: 初候
    (first) for 0, 次候 (middle) for 1, 末候 (last) for 2. *)
Theorem format_message_contains (date : datetime) (sekki : Sekki) (ko : Ko)
    (ko_index : Z) :
  (0 <= ko_index <= 2)%Z ->
  exists (message label : string),
    format_message date sekki ko ko_index = Ok message
    /\ nth_error ["初候"; "次候"; "末候"]%string (Z.to_nat ko_index) = Some label
    /\ contains message (strftime_Ymd date)
    /\ contains message (sekki_name sekki)
    /\ contains message (ko_name ko)
    /\ contains message (ko_reading ko)
    /\ contains message (ko_emoji ko)
    /\ contains message label.
Proof.
  intro H. destruct (ko_names_label ko_index H) as (label & Hl & Hn).
  unfold format_message. rewrite Hl. cbv beta iota delta [bind].
  eexists. exists label. split; [reflexivity|]. split; [exact Hn|].
  repeat split; find_piece.
Qed.

Lemma format_message_contains_witness :
  (0 <= 1 <= 2)%Z /\
  exists (message label : string),
    format_message (mkDatetime 2025 2 4) (sample_sekki 0) (sample_ko 0 1) 1
    = Ok message
    /\ nth_error ["初候"; "次候"; "末候"]%string (Z.to_nat 1) = Some label
    /\ contains message (strftime_Ymd (mkDatetime 2025 2 4))
    /\ contains message (sekki_name (sample_sekki 0))
    /\ contains message (ko_name (sample_ko 0 1))
    /\ contains message (ko_reading (sample_ko 0 1))
    /\ contains message (ko_emoji (sample_ko 0 1))
    /\ contains message label.
Proof.
  assert (H : (0 <= 1 <= 2)%Z) by lia.
  split; [assumption|].
  exact (format_message_contains (mkDatetime 2025 2 4) (sample_sekki 0)
           (sample_ko 0 1) 1 H).
Defined.

(** ** Delivery *)

(** C10.  In every world, for every message and webhook URL,
    [post_to_slack] returns a boolean; an exception raised by the HTTP call
    is not propagated: the result is [false] and the error is printed; and
    the result is [true] if and only if the response has status code 200, so
    that any other status, 201 or 204 for instance, counts as a failure. *)
Theorem post_to_slack_best_effort
    (requests_post : slack_request -> post_outcome) (message webhook_url : string) :
  let request := mkRequest webhook_url message BOT_NAME ICON_URL 10 in
  (exists (b : bool) (printed : list string),
      post_to_slack requests_post message webhook_url = (b, printed))
  /\ (forall e, requests_post request = PostRaised e ->
        post_to_slack requests_post message webhook_url
        = (false, ["Slack 投稿エラー: " ++ e]%string))
  /\ (fst (post_to_slack requests_post message webhook_url) = true
      <-> requests_post request = Response 200)
  /\ (forall status_code, requests_post request = Response status_code ->
        status_code <> 200%Z ->
        post_to_slack requests_post message webhook_url = (false, [])).
Proof.
  intro request. unfold post_to_slack. fold request.
  destruct (requests_post request) as [c|e] eqn:E.
  - split; [eexists; eexists; reflexivity|].
    split; [intros e He; discriminate He|].
    split.
    + simpl. rewrite Z.eqb_eq. split; [intros ->; reflexivity|].
      intro H. inversion H. reflexivity.
    + intros c' Hc Hne. inversion Hc; subst c'.
      apply Z.eqb_neq in Hne. rewrite Hne. reflexivity.
  - split; [eexists; eexists; reflexivity|].
    split; [intros e' He; inversion He; reflexivity|].
    split.
    + simpl. split; intro H; discriminate H.
    + intros c Hc. discriminate Hc.
Qed.

(** * Further properties of the code *)

(** ** What [_find_ko_in_sekki] and the loop return *)

Lemma find_ko_in_sekki_inv (longitude : Q) (sekki : Sekki) (next_sekki_lon : Q)
    (s : Sekki) (k : Ko) (i : Z) :
  _find_ko_in_sekki longitude sekki next_sekki_lon = Ok (s, k, i) ->
  s = sekki /\ py_index (sekki_ko sekki) i = Ok k /\ (i <= 2)%Z.
Proof.
  rewrite find_ko_in_sekki_eq. unfold bind. intro H.
  destruct (py_div (term_span _ _) _) as [ko_span|]; [|discriminate].
  destruct (py_div _ ko_span) as [quotient|]; [|discriminate].
  destruct (py_int_float quotient) as [n|]; [|discriminate].
  destruct (py_index _ _) as [k'|] eqn:E; [|discriminate].
  inversion H; subst. repeat split; [exact E|lia].
Qed.

Lemma find_loop_inv (longitude : Q) (sekki_list rest : list Sekki) :
  forall (i : nat) (s : Sekki) (k : Ko) (ko_index : Z),
    find_loop longitude sekki_list i rest = Ok (Some (s, k, ko_index)) ->
    In s rest /\ py_index (sekki_ko s) ko_index = Ok k /\ (ko_index <= 2)%Z.
Proof.
  induction rest as [|sekki rest IH]; intros i s k ko_index H; [discriminate H|].
  simpl in H.
  destruct (py_index sekki_list _) as [next_sekki|]; simpl in H; [|discriminate].
  assert (R : forall r, (r <- r ;; Ok (Some r)) = Ok (Some (s, k, ko_index)) ->
                        r = Ok (s, k, ko_index)).
  { intros [r|e] Hr; simpl in Hr; [inversion Hr; reflexivity|discriminate]. }
  assert (Here : _find_ko_in_sekki longitude sekki (sekki_longitude next_sekki)
                 = Ok (s, k, ko_index) ->
                 In s (sekki :: rest) /\ py_index (sekki_ko s) ko_index = Ok k
                 /\ (ko_index <= 2)%Z).
  { intro Hf. destruct (find_ko_in_sekki_inv _ _ _ _ _ _ Hf) as (-> & Hk & Hi).
    split; [left; reflexivity|]. split; assumption. }
  assert (Later : find_loop longitude sekki_list (S i) rest
                  = Ok (Some (s, k, ko_index)) ->
                  In s (sekki :: rest) /\ py_index (sekki_ko s) ko_index = Ok k
                  /\ (ko_index <= 2)%Z).
  { intro Hl. destruct (IH _ _ _ _ Hl) as (Hin & Hk & Hi).
    split; [right; exact Hin|]. split; assumption. }
  destruct (Qlt_bool _ _);
    match type of H with
    | (if ?b then _ else _) = _ => destruct b
    end;
    first [ apply Later; exact H | apply Here; apply R; exact H ].
Qed.

Lemma find_current_ko_result_inv_aux (data : Data) (longitude : Q)
    (s : Sekki) (k : Ko) (ko_index : Z) :
  find_current_ko longitude data = Ok (s, k, ko_index) ->
  In s (data_sekki data)
  /\ (ko_index <= 2)%Z
  /\ (- Z.of_nat (List.length (sekki_ko s)) <= ko_index)%Z.
Proof.
  unfold find_current_ko. intro H.
  destruct (find_loop _ _ _ _) as [[r|]|] eqn:L; simpl in H; try discriminate.
  - inversion H; subst r.
    destruct (find_loop_inv _ _ _ _ _ _ _ L) as (Hin & Hk & Hi).
    destruct (py_index_inv _ _ _ Hk) as (_ & Hb). repeat split; trivial; lia.
  - destruct (py_index (data_sekki data) 0) as [s0|] eqn:E0; simpl in H;
      [|discriminate].
    destruct (py_index (sekki_ko s0) 0) as [k0|] eqn:E1; simpl in H;
      [|discriminate].
    inversion H; subst.
    destruct (py_index_inv _ _ _ E1) as (_ & Hb).
    repeat split; [apply (py_index_inv _ _ _ E0)|lia|lia].
Qed.

(** X1.  Whatever the table and the longitude, when [find_current_ko]
    returns [(sekki, ko, ko_index)] the term is an entry of the table,
    [ko] is [sekki["ko"][ko_index]], an entry of that term, and
    [ko_index] is at most 2 and a valid Python index of the term's list. *)
Theorem find_current_ko_result_consistent (data : Data) (longitude : Q)
    (s : Sekki) (k : Ko) (ko_index : Z) :
  find_current_ko longitude data = Ok (s, k, ko_index) ->
  In s (data_sekki data)
  /\ py_index (sekki_ko s) ko_index = Ok k
  /\ In k (sekki_ko s)
  /\ (ko_index <= 2)%Z
  /\ (- Z.of_nat (List.length (sekki_ko s)) <= ko_index
      < Z.of_nat (List.length (sekki_ko s)))%Z.
Proof.
  unfold find_current_ko. intro H.
  assert (G : py_index (sekki_ko s) ko_index = Ok k -> (ko_index <= 2)%Z ->
              In s (data_sekki data) ->
              In s (data_sekki data)
              /\ py_index (sekki_ko s) ko_index = Ok k
              /\ In k (sekki_ko s)
              /\ (ko_index <= 2)%Z
              /\ (- Z.of_nat (List.length (sekki_ko s)) <= ko_index
                  < Z.of_nat (List.length (sekki_ko s)))%Z).
  { intros Hk Hi Hs. destruct (py_index_inv _ _ _ Hk) as (Hin & Hb). auto. }
  destruct (find_loop _ _ _ _) as [[r|]|] eqn:L; simpl in H; try discriminate.
  - inversion H; subst r.
    destruct (find_loop_inv _ _ _ _ _ _ _ L) as (Hin & Hk & Hi).
    apply G; assumption.
  - destruct (py_index (data_sekki data) 0) as [s0|] eqn:E0; simpl in H;
      [|discriminate].
    destruct (py_index (sekki_ko s0) 0) as [k0|] eqn:E1; simpl in H;
      [|discriminate].
    inversion H; subst. apply G; [exact E1|lia|].
    apply (py_index_inv _ _ _ E0).
Qed.

Lemma find_current_ko_result_consistent_witness :
  find_current_ko (-1) sample_data = Ok (sample_sekki 2, sample_ko 2 2, 2%Z) /\
  (In (sample_sekki 2) (data_sekki sample_data)
   /\ py_index (sekki_ko (sample_sekki 2)) 2 = Ok (sample_ko 2 2)
   /\ In (sample_ko 2 2) (sekki_ko (sample_sekki 2))
   /\ (2 <= 2)%Z
   /\ (- Z.of_nat (List.length (sekki_ko (sample_sekki 2))) <= 2
       < Z.of_nat (List.length (sekki_ko (sample_sekki 2))))%Z).
Proof.
  assert (H : find_current_ko (-1) sample_data
              = Ok (sample_sekki 2, sample_ko 2 2, 2%Z))
    by (vm_compute; reflexivity).
  split; [assumption|].
  exact (find_current_ko_result_consistent sample_data (-1) _ _ _ H).
Defined.

(** ** Tables without a unique active term *)



(** X3.  On a table of 24 terms the loop stops at the first term, in the
    order of the table, whose range condition holds: [find_current_ko] is
    [_find_ko_in_sekki] on that term, also when later terms match as
    well. *)
Theorem first_active_term_wins (data : Data) (longitude : Q) (i : nat) :
  List.length (data_sekki data) = 24%nat ->
  (i < 24)%nat ->
  active data longitude i = true ->
  (forall j, (j < i)%nat -> active data longitude j = false) ->
  find_current_ko longitude data
  = _find_ko_in_sekki longitude (nth i (data_sekki data) dummy_sekki)
                      (next_lon_at data i).
Proof.
  intros Hl Hi Hact Hb. unfold find_current_ko.
  rewrite (find_loop_first data longitude Hl (data_sekki data) 0 i); trivial.
  - destruct (_find_ko_in_sekki _ _ _); reflexivity.
  - lia.
  - intros j Hj. apply Hb. lia.
Qed.

(** A table with two wrapping pairs: term 1 starts at 300, so that the start
    longitudes are 315, 300, 345, 0, ... and both pairs (0, 1) and (2, 3)
    wrap. *)
Lemma first_active_term_wins_witness :
  List.length (data_sekki (set_lon 1 300 sample_data)) = 24%nat /\
  (0 < 24)%nat /\
  active (set_lon 1 300 sample_data) 350 0 = true /\
  active (set_lon 1 300 sample_data) 350 2 = true /\
  (forall j, (j < 0)%nat -> active (set_lon 1 300 sample_data) 350 j = false) /\
  find_current_ko 350 (set_lon 1 300 sample_data)
  = _find_ko_in_sekki 350 (nth 0 (data_sekki (set_lon 1 300 sample_data)) dummy_sekki)
                      (next_lon_at (set_lon 1 300 sample_data) 0).
Proof.
  assert (Hl : List.length (data_sekki (set_lon 1 300 sample_data)) = 24%nat)
    by reflexivity.
  assert (Hi : (0 < 24)%nat) by lia.
  assert (Ha : active (set_lon 1 300 sample_data) 350 0 = true) by reflexivity.
  assert (Ha2 : active (set_lon 1 300 sample_data) 350 2 = true) by reflexivity.
  assert (Hb : forall j, (j < 0)%nat ->
                         active (set_lon 1 300 sample_data) 350 j = false)
    by (intros j Hj; lia).
  repeat (split; [assumption|]).
  exact (first_active_term_wins (set_lon 1 300 sample_data) 350 0 Hl Hi Ha Hb).
Defined.

(** ** Tables with fewer than 24 terms *)

Lemma find_loop_step_gen (longitude : Q) (data : Data) (i : nat) (s : Sekki)
    (rest : list Sekki) :
  skipn i (data_sekki data) = s :: rest ->
  ((i + 1) mod 24 < List.length (data_sekki data))%nat ->
  find_loop longitude (data_sekki data) i (s :: rest)
  = if active data longitude i
    then r <- _find_ko_in_sekki longitude s (next_lon_at data i) ;; Ok (Some r)
    else find_loop longitude (data_sekki data) (S i) rest.
Proof.
  intros Hs Hn.
  destruct (skipn_cons_nth dummy_sekki _ _ _ _ Hs) as (Hh & _ & _).
  simpl.
  replace ((Z.of_nat i + 1) mod 24)%Z with (Z.of_nat ((i + 1) mod 24))
    by (rewrite Nat2Z.inj_mod; f_equal; lia).
  rewrite (py_index_nth _ _ dummy_sekki Hn). simpl.
  unfold active, in_range, next_lon_at, lon_at. rewrite Hh.
  destruct (Qlt_bool _ (sekki_longitude s)); reflexivity.
Qed.

Lemma find_loop_short (longitude : Q) (data : Data) (rest : list Sekki) :
  (List.length (data_sekki data) < 24)%nat ->
  forall i, skipn i (data_sekki data) = rest -> rest <> [] ->
    (forall j, (i <= j)%nat -> (j + 1 < List.length (data_sekki data))%nat ->
               active data longitude j = false) ->
    find_loop longitude (data_sekki data) i rest = Raise IndexError.
Proof.
  intro Hn. induction rest as [|s rest IH]; intros i Hs Hne Hno; [congruence|].
  destruct (skipn_cons_nth dummy_sekki _ _ _ _ Hs) as (_ & Hr & Hlt).
  destruct (Nat.eq_dec (i + 1) (List.length (data_sekki data))) as [E|E].
  - simpl.
    rewrite py_index_above; [reflexivity|].
    rewrite Z.mod_small by lia. lia.
  - rewrite find_loop_step_gen; trivial.
    + rewrite Hno by lia. apply IH; trivial.
      * intro Hnil. rewrite Hnil in Hr.
        assert (L : List.length (skipn (S i) (data_sekki data)) = 0%nat)
          by (rewrite Hr; reflexivity).
        rewrite length_skipn in L. lia.
      * intros j Hj Hj'. apply Hno; lia.
    + rewrite Nat.mod_small by lia. lia.
Qed.

(** X4.  On a table with fewer than 24 terms the last term is never tried:
    computing its successor [sekki_list[(i + 1) % 24]] is out of range.  So
    when none of the terms before the last one is active, and also when the
    table is empty, [find_current_ko] raises [IndexError]; the fallback of
    line 67 is never reached. *)
Theorem short_table_index_error (data : Data) (longitude : Q) :
  (List.length (data_sekki data) < 24)%nat ->
  (forall j, (j + 1 < List.length (data_sekki data))%nat ->
             active data longitude j = false) ->
  find_current_ko longitude data = Raise IndexError.
Proof.
  intros Hn Hno. unfold find_current_ko.
  assert (C : data_sekki data = [] \/ data_sekki data <> [])
    by (destruct (data_sekki data); [left|right]; congruence).
  destruct C as [E|E].
  - rewrite E. reflexivity.
  - rewrite (find_loop_short longitude data (data_sekki data) Hn 0); trivial.
    intros j _ Hj. apply Hno. exact Hj.
Qed.

Lemma short_table_index_error_witness :
  (List.length (data_sekki short_data) < 24)%nat /\
  (forall j, (j + 1 < List.length (data_sekki short_data))%nat ->
             active short_data 310 j = false) /\
  find_current_ko 310 short_data = Raise IndexError.
Proof.
  assert (Hn : (List.length (data_sekki short_data) < 24)%nat)
    by (vm_compute; lia).
  assert (Hno : forall j, (j + 1 < List.length (data_sekki short_data))%nat ->
                          active short_data 310 j = false).
  { intros j Hj.
    assert (B : forallb (fun j => negb (active short_data 310 j)) (seq 0 22) = true)
      by (vm_compute; reflexivity).
    rewrite forallb_forall in B. apply negb_true_iff. apply B.
    apply in_seq. change (List.length (data_sekki short_data)) with 23%nat in Hj.
    lia. }
  repeat (split; [assumption|]).
  exact (short_table_index_error short_data 310 Hn Hno).
Defined.

(** ** The index grows with the longitude *)



(** ** Negative longitudes *)

(** A negative longitude is in the range of the wrapping term, below its
    start. *)
Lemma negative_matches_wrap (data : Data) (longitude : Q) (w : nat) :
  well_formed data -> (w < 24)%nat -> wraps data w = true -> longitude < 0 ->
  active data longitude w = true
  /\ (forall j, (j < 24)%nat -> active data longitude j = true -> j = w)
  /\ Qle_bool (lon_at data w) longitude = false
  /\ Qlt_bool longitude (next_lon_at data w) = true
  /\ find_current_ko longitude data
     = _find_ko_in_sekki longitude (nth w (data_sekki data) dummy_sekki)
                         (next_lon_at data w).
Proof.
  intros Hwf Hw W Hx.
  destruct (well_formed_lon data w Hwf Hw) as (_ & L0 & L1).
  destruct (well_formed_next_lon data w Hwf) as (_ & N0 & N1).
  assert (E1 : Qle_bool (lon_at data w) longitude = false)
    by (apply Qle_bool_false; lra).
  assert (E2 : Qlt_bool longitude (next_lon_at data w) = true)
    by (apply Qlt_bool_iff; lra).
  assert (Hact : active data longitude w = true).
  { unfold active, in_range. unfold wraps in W. rewrite W, E1, E2. reflexivity. }
  destruct (resolve_at data longitude w Hwf Hw Hact) as (Hu & Hr).
  auto.
Qed.

(** X8.  On a well-formed table a negative longitude always falls to the
    wrapping term, through [longitude < next_lon]: this term's range
    condition holds and no other's, and [find_current_ko] is
    [_find_ko_in_sekki] on the wrapping term, in the branch of the offset
    [(360 - start) + longitude]. *)
Theorem negative_longitude_wrapping_term (data : Data) (longitude : Q) (w : nat) :
  well_formed data -> (w < 24)%nat -> wraps data w = true -> longitude < 0 ->
  active data longitude w = true
  /\ (forall j, (j < 24)%nat -> active data longitude j = true -> j = w)
  /\ Qle_bool (lon_at data w) longitude = false
  /\ Qlt_bool longitude (next_lon_at data w) = true
  /\ find_current_ko longitude data
     = _find_ko_in_sekki longitude (nth w (data_sekki data) dummy_sekki)
                         (next_lon_at data w).
Proof.
  intros Hwf Hw W Hx. apply negative_matches_wrap; assumption.
Qed.

Lemma negative_longitude_wrapping_term_witness :
  well_formed sample_data /\ (2 < 24)%nat /\ wraps sample_data 2 = true /\
  -8 < 0 /\
  active sample_data (-8) 2 = true
  /\ (forall j, (j < 24)%nat -> active sample_data (-8) j = true -> j = 2%nat)
  /\ Qle_bool (lon_at sample_data 2) (-8) = false
  /\ Qlt_bool (-8) (next_lon_at sample_data 2) = true
  /\ find_current_ko (-8) sample_data
     = _find_ko_in_sekki (-8) (nth 2 (data_sekki sample_data) dummy_sekki)
                         (next_lon_at sample_data 2).
Proof.
  assert (Hwf : well_formed sample_data) by exact sample_data_well_formed.
  assert (Hw : (2 < 24)%nat) by lia.
  assert (W : wraps sample_data 2 = true) by reflexivity.
  assert (Hx : -8 < 0) by reflexivity.
  do 4 (split; [assumption|]).
  exact (negative_longitude_wrapping_term sample_data (-8) 2 Hwf Hw W Hx).
Defined.

(** X9.  On a well-formed table with wrapping term [w], a negative
    longitude (a float) has the finite offset [(360 - start) + longitude]
    in that term, and a third of the span is a positive float [c].  With
    [q] the binary64 quotient of the offset by [c]: [find_current_ko]
    raises [IndexError] when [q <= -4]; it returns the wrapping term with
    the index [min(int(q), 2)], in -3..2, when [-4 < q], and this index is
    negative, a position counted from the end of the list, exactly when
    [q <= -1]; and it raises [OverflowError] when the quotient is
    infinite. *)
Theorem negative_longitude_index_error (data : Data) (longitude : Q) (w : nat) :
  well_formed data -> (w < 24)%nat -> wraps data w = true ->
  is_float64 longitude -> longitude < 0 ->
  exists sv c o : Q,
    fadd (fsub (F 360) (F (lon_at data w))) (F (next_lon_at data w)) = F sv
    /\ fdiv (F sv) (F 3) = F c /\ 0 < c
    /\ fadd (fsub (F 360) (F (lon_at data w))) (F longitude) = F o
    /\ match fdiv (F o) (F c) with
       | F q =>
         (q <= -4 -> find_current_ko longitude data = Raise IndexError)
         /\ (-4 < q ->
             exists k,
               find_current_ko longitude data
               = Ok (nth w (data_sekki data) dummy_sekki, k, Z.min (py_int q) 2)
               /\ (-3 <= Z.min (py_int q) 2 <= 2)%Z
               /\ ((Z.min (py_int q) 2 < 0)%Z <-> q <= -1))
       | Inf _ => find_current_ko longitude data = Raise OverflowError
       | NaN => False
       end.
Proof.
  intros Hwf Hw W Fx Hx.
  destruct (negative_matches_wrap data longitude w Hwf Hw W Hx)
    as (_ & _ & E1 & _ & Hr).
  pose proof (well_formed_lon data w Hwf Hw) as Hlon.
  pose proof (well_formed_next_lon data w Hwf) as Hnext.
  destruct (well_formed_nth data w Hwf Hw) as ((_ & Hlen) & _).
  pose proof W as W'. unfold wraps in W'.
  destruct (wrap_span _ _ Hlon Hnext W')
    as (d & sv & c & Hd & Fd & Ld & Ud & Hs & Es & Fs & Ls & Us
        & Hc & Ec & Fc & Lc & Uc).
  pose proof (pow2_pos (-44)) as P44. pose proof (pow2_pos (-46)) as P46.
  assert (C0 : 0 < c) by lra.
  destruct Fx as (Rx & Bx & _).
  destruct (round64_between (d + longitude) longitude d) as (o & Ho & _);
    trivial; try apply Fd; try lra.
  assert (Hoff : term_offset longitude (lon_at data w) (next_lon_at data w) = F o).
  { unfold term_offset. rewrite W', E1, Hd. exact Ho. }
  assert (Hfind : find_current_ko longitude data
                  = (n <- py_int_float (fdiv (F o) (F c)) ;;
                     k <- py_index (sekki_ko (nth w (data_sekki data) dummy_sekki))
                                   (Z.min n 2) ;;
                     Ok (nth w (data_sekki data) dummy_sekki, k, Z.min n 2))).
  { rewrite Hr, find_ko_in_sekki_eq, py_div_three.
    fold (lon_at data w). rewrite Hs, Hc, Hoff.
    cbv beta iota delta [bind]. rewrite py_div_nonzero by lra. reflexivity. }
  exists sv, c, o.
  unfold term_span in Hs. rewrite W' in Hs.
  split; [exact Hs|]. split; [exact Hc|]. split; [exact C0|].
  split; [rewrite Hd; exact Ho|].
  destruct (fdiv (F o) (F c)) as [q|s|] eqn:D.
  - cbv beta iota delta [bind py_int_float] in Hfind.
    split.
    + intro Hq. apply (py_int_le_neg q (-4)) in Hq; [|lia].
      rewrite Hfind, py_index_below; [reflexivity|]. rewrite Hlen. lia.
    + intro Hq.
      assert (Hge : (-3 <= py_int q)%Z).
      { destruct (Z_lt_le_dec (py_int q) (-3)) as [Hl|]; [|assumption].
        exfalso. assert (Hl' : (py_int q <= -4)%Z) by lia.
        apply (py_int_le_neg q (-4)) in Hl'; [|lia].
        change (inject_Z (-4)) with (-4) in Hl'. lra. }
      destruct (py_index_in_range
                  (sekki_ko (nth w (data_sekki data) dummy_sekki))
                  (Z.min (py_int q) 2))
        as (k & Hk); [rewrite Hlen; lia|].
      exists k. rewrite Hfind, Hk. split; [reflexivity|]. split; [lia|].
      assert (E : (Z.min (py_int q) 2 < 0)%Z <-> (py_int q <= -1)%Z) by lia.
      rewrite E. apply (py_int_le_neg q (-1)). lia.
  - rewrite Hfind. reflexivity.
  - simpl in D. exact (round64_not_nan _ D).
Qed.

Lemma negative_longitude_index_error_witness :
  well_formed sample_data /\ (2 < 24)%nat /\ wraps sample_data 2 = true /\
  is_float64 (-22) /\ -22 < 0 /\
  exists sv c o : Q,
    fadd (fsub (F 360) (F (lon_at sample_data 2))) (F (next_lon_at sample_data 2))
    = F sv
    /\ fdiv (F sv) (F 3) = F c /\ 0 < c
    /\ fadd (fsub (F 360) (F (lon_at sample_data 2))) (F (-22)) = F o
    /\ match fdiv (F o) (F c) with
       | F q =>
         (q <= -4 -> find_current_ko (-22) sample_data = Raise IndexError)
         /\ (-4 < q ->
             exists k,
               find_current_ko (-22) sample_data
               = Ok (nth 2 (data_sekki sample_data) dummy_sekki, k,
                     Z.min (py_int q) 2)
               /\ (-3 <= Z.min (py_int q) 2 <= 2)%Z
               /\ ((Z.min (py_int q) 2 < 0)%Z <-> q <= -1))
       | Inf _ => find_current_ko (-22) sample_data = Raise OverflowError
       | NaN => False
       end.
Proof.
  assert (Hwf : well_formed sample_data) by exact sample_data_well_formed.
  assert (Hw : (2 < 24)%nat) by lia.
  assert (W : wraps sample_data 2 = true) by reflexivity.
  assert (Fx : is_float64 (-22))
    by (apply is_float64b_spec; vm_compute; reflexivity).
  assert (Hx : -22 < 0) by reflexivity.
  repeat (split; [assumption|]).
  exact (negative_longitude_index_error sample_data (-22) 2 Hwf Hw W Fx Hx).
Defined.

(** At longitude -22 the offset is -7 and the index is -1: the last
    micro-season of the wrapping term is returned with a negative index. *)
Example negative_index_returned :
  find_current_ko (-22) sample_data = Ok (sample_sekki 2, sample_ko 2 2, (-1)%Z).
Proof. vm_compute. reflexivity. Qed.

(** ** [format_message] and the index *)

(** X10.  [format_message] returns a message exactly for the indices -3..2
    and raises [IndexError] for every other index; a negative index in
    range takes its label from the end of the list, so that it gives the
    message of the index plus 3. *)
Theorem format_message_index_range (date : datetime) (sekki : Sekki) (ko : Ko)
    (ko_index : Z) :
  ((exists message, format_message date sekki ko ko_index = Ok message)
   <-> (-3 <= ko_index <= 2)%Z)
  /\ (format_message date sekki ko ko_index = Raise IndexError
      <-> (ko_index < -3 \/ 2 < ko_index)%Z)
  /\ ((-3 <= ko_index < 0)%Z ->
      format_message date sekki ko ko_index
      = format_message date sekki ko (ko_index + 3)).
Proof.
  assert (In_range : (-3 <= ko_index <= 2)%Z ->
                     exists message, format_message date sekki ko ko_index = Ok message).
  { intro H.
    destruct (py_index_in_range ko_names ko_index) as (label & Hl);
      [simpl; lia|].
    unfold format_message. rewrite Hl. eexists. reflexivity. }
  assert (Out : (ko_index < -3 \/ 2 < ko_index)%Z ->
                format_message date sekki ko ko_index = Raise IndexError).
  { intro H. unfold format_message.
    destruct H as [H|H].
    - rewrite py_index_below; [reflexivity|simpl; lia].
    - rewrite py_index_above; [reflexivity|simpl; lia]. }
  split; [split|split; [split|]].
  - intros (message & Hm).
    destruct (Z_lt_le_dec ko_index (-3)) as [L|L];
      [rewrite Out in Hm by lia; discriminate|].
    destruct (Z_lt_le_dec 2 ko_index) as [U|U];
      [rewrite Out in Hm by lia; discriminate|].
    lia.
  - exact In_range.
  - intro H.
    destruct (Z_lt_le_dec ko_index (-3)) as [L|L]; [lia|].
    destruct (Z_lt_le_dec 2 ko_index) as [U|U]; [lia|].
    destruct (In_range ltac:(lia)) as (message & Hm). congruence.
  - exact Out.
  - intro H.
    assert (C : ko_index = (-3)%Z \/ ko_index = (-2)%Z \/ ko_index = (-1)%Z) by lia.
    destruct C as [->|[->| ->]]; reflexivity.
Qed.

Lemma all_ko_at_most_three (data : Data) (s : Sekki) :
  Forall (fun t => (List.length (sekki_ko t) <= 3)%nat) (data_sekki data) ->
  In s (data_sekki data) -> (List.length (sekki_ko s) <= 3)%nat.
Proof.
  intros F Hin. rewrite Forall_forall in F. apply F. exact Hin.
Qed.

(** X11.  When no term of the table has more than 3 micro-seasons, every
    result of [find_current_ko], on any longitude, is accepted by
    [format_message]: the index it returns is in -3..2, and the message
    holds the names of the returned term and micro-season. *)
Theorem resolved_position_formats (data : Data) (longitude : Q) (date : datetime)
    (s : Sekki) (k : Ko) (ko_index : Z) :
  Forall (fun t => (List.length (sekki_ko t) <= 3)%nat) (data_sekki data) ->
  find_current_ko longitude data = Ok (s, k, ko_index) ->
  (-3 <= ko_index <= 2)%Z
  /\ exists message,
       format_message date s k ko_index = Ok message
       /\ contains message (sekki_name s)
       /\ contains message (ko_name k)
       /\ contains message (ko_reading k)
       /\ contains message (ko_emoji k).
Proof.
  intros F H.
  destruct (find_current_ko_result_inv_aux data longitude s k ko_index H)
    as (Hin & Hle & Hb).
  pose proof (all_ko_at_most_three data s F Hin) as H3.
  assert (R : (-3 <= ko_index <= 2)%Z) by lia.
  split; [exact R|].
  destruct (py_index_in_range ko_names ko_index) as (label & Hl);
    [simpl; lia|].
  unfold format_message. rewrite Hl. cbv beta iota delta [bind].
  eexists. split; [reflexivity|].
  repeat split; find_piece.
Qed.

Lemma resolved_position_formats_witness :
  Forall (fun t => (List.length (sekki_ko t) <= 3)%nat) (data_sekki sample_data) /\
  find_current_ko (-22) sample_data = Ok (sample_sekki 2, sample_ko 2 2, (-1)%Z) /\
  (-3 <= -1 <= 2)%Z
  /\ exists message,
       format_message (mkDatetime 2025 3 20) (sample_sekki 2) (sample_ko 2 2) (-1)
       = Ok message
       /\ contains message (sekki_name (sample_sekki 2))
       /\ contains message (ko_name (sample_ko 2 2))
       /\ contains message (ko_reading (sample_ko 2 2))
       /\ contains message (ko_emoji (sample_ko 2 2)).
Proof.
  assert (F : Forall (fun t => (List.length (sekki_ko t) <= 3)%nat)
                     (data_sekki sample_data)).
  { destruct sample_data_well_formed as (_ & F & _).
    rewrite Forall_forall in *. intros s Hs. destruct (F s Hs) as (_ & E).
    rewrite E. lia. }
  assert (H : find_current_ko (-22) sample_data
              = Ok (sample_sekki 2, sample_ko 2 2, (-1)%Z))
    by (vm_compute; reflexivity).
  repeat (split; [assumption|]).
  exact (resolved_position_formats sample_data (-22) (mkDatetime 2025 3 20)
           _ _ _ F H).
Defined.

(** With a fourth micro-season in the terms the index -4 is returned at
    longitude -35, and [format_message] refuses it. *)
Example four_ko_result_not_formatted :
  find_current_ko (-35) four_ko_data
  = Ok (nth 2 (data_sekki four_ko_data) dummy_sekki, sample_ko 2 0, (-4)%Z)
  /\ format_message (mkDatetime 2025 3 20)
       (nth 2 (data_sekki four_ko_data) dummy_sekki) (sample_ko 2 0) (-4)
     = Raise IndexError.
Proof. split; vm_compute; reflexivity. Qed.

(** ** [main] *)

Lemma last_app_one {A : Type} (l : list A) (a d : A) : last (l ++ [a]) d = a.
Proof. apply last_last. Qed.

Ltac in_out := repeat rewrite in_app_iff; simpl; auto 10.

Section Main.

Variable str_datetime : datetime -> string.
Variable format_2f : Q -> string.

(** X12.  When the data file holds a table whose terms have at most 3
    micro-seasons and [find_current_ko] returns a result for the longitude
    of the ephemeris, [main] returns normally in every world: no exception
    leaves it, whatever the HTTP call does.  It prints the message that
    [format_message] builds from that result; its last line reports a
    skipped delivery when [SLACK_WEBHOOK_URL] is unset or empty, and
    otherwise a success exactly when the response to the posted message has
    status 200. *)
Theorem main_returns_when_resolved (w : world) (data : Data) (longitude : Q)
    (s : Sekki) (k : Ko) (ko_index : Z) :
  w_sekki_json w = Document data ->
  Forall (fun t => (List.length (sekki_ko t) <= 3)%nat) (data_sekki data) ->
  w_sun_longitude w (w_now w) = SunLongitude longitude ->
  find_current_ko longitude data = Ok (s, k, ko_index) ->
  exists (out : list string) (message : string),
    main str_datetime format_2f w = (out, Returned)
    /\ format_message (w_now w) s k ko_index = Ok message
    /\ In (newline ++ "投稿メッセージ:" ++ newline ++ message)%string out
    /\ (truthy (w_webhook_url w) = false -> last out ""%string = skip_line)
    /\ (forall webhook_url,
           w_webhook_url w = Some webhook_url -> truthy (Some webhook_url) = true ->
           let request := mkRequest webhook_url message BOT_NAME ICON_URL 10 in
           (w_requests_post w request = Response 200 ->
            last out ""%string = success_line)
           /\ (w_requests_post w request <> Response 200 ->
               last out ""%string = failure_line)).
Proof.
  intros Hd Hko Hsun Hr.
  destruct (find_current_ko_result_inv_aux data longitude s k ko_index Hr)
    as (Hin & Hi2 & Hlo).
  pose proof (all_ko_at_most_three data s Hko Hin) as H3.
  destruct (py_index_in_range ko_names ko_index) as (label & Hl); [simpl; lia|].
  assert (Hm : exists message, format_message (w_now w) s k ko_index = Ok message).
  { unfold format_message. rewrite Hl. eexists. reflexivity. }
  destruct Hm as (message & Hm).
  unfold main. rewrite Hd. simpl load_sekki_data. cbv beta iota.
  rewrite Hsun, Hr, Hm.
  destruct (w_webhook_url w) as [url|] eqn:Hu.
  - destruct (truthy (Some url)) eqn:T.
    + unfold post_to_slack.
      destruct (w_requests_post w (mkRequest url message BOT_NAME ICON_URL 10))
        as [c|e] eqn:P.
      * eexists; exists message.
        split; [reflexivity|]. split; [reflexivity|].
        split; [in_out|].
        split; [discriminate|].
        intros url' Hu' _. inversion Hu'; subst url'. cbv zeta. rewrite P.
        rewrite !app_assoc, last_app_one. split.
        -- intro E. inversion E. reflexivity.
        -- intro Hne. destruct (c =? 200)%Z eqn:C; [|reflexivity].
           apply Z.eqb_eq in C. subst c. congruence.
      * eexists; exists message.
        split; [reflexivity|]. split; [reflexivity|].
        split; [in_out|].
        split; [discriminate|].
        intros url' Hu' _. inversion Hu'; subst url'. cbv zeta. rewrite P.
        rewrite !app_assoc, last_app_one. split.
        -- intro E. discriminate E.
        -- intros _. reflexivity.
    + eexists; exists message.
      split; [reflexivity|]. split; [reflexivity|].
      split; [in_out|].
      split; [intros _; rewrite last_app_one; reflexivity|].
      intros url' Hu' T'. inversion Hu'; subst url'. congruence.
  - eexists; exists message.
    split; [reflexivity|]. split; [reflexivity|].
    split; [in_out|].
    split; [intros _; rewrite last_app_one; reflexivity|].
    intros url' Hu'. discriminate Hu'.
Qed.

(** X13.  When [SLACK_WEBHOOK_URL] is unset or is the empty string, [main]
    does not depend on the HTTP endpoint at all: it prints and ends the
    same way whatever a request would be answered. *)
Theorem main_without_webhook_ignores_endpoint (w : world)
    (other_post : slack_request -> post_outcome) :
  truthy (w_webhook_url w) = false ->
  main str_datetime format_2f w
  = main str_datetime format_2f
      (mkWorld (w_now w) (w_sekki_json w) (w_sun_longitude w) (w_webhook_url w)
               other_post).
Proof.
  intro T. unfold main.
  cbn [w_now w_sekki_json w_sun_longitude w_webhook_url w_requests_post].
  destruct (load_sekki_data (w_sekki_json w)) as [data|e]; [|reflexivity].
  destruct (w_sun_longitude w (w_now w)) as [longitude|e]; [|reflexivity].
  destruct (find_current_ko longitude data) as [[[s k] i]|e]; [|reflexivity].
  destruct (format_message (w_now w) s k i) as [message|e]; [|reflexivity].
  revert T. destruct (w_webhook_url w) as [url|]; intro T; [|reflexivity].
  rewrite T. reflexivity.
Qed.

(** X14.  [main] prints nothing exactly when it has no longitude to work
    with: the data file could not be loaded, or it was loaded and the
    ephemeris raised.  In both cases the exception leaves [main]; the file
    is read first, so that a missing file hides a failing ephemeris. *)
Theorem main_silent_iff_no_longitude (w : world) :
  (fst (main str_datetime format_2f w) = []
   <-> (exists e, load_sekki_data (w_sekki_json w) = Raise e)
       \/ (exists e, w_sun_longitude w (w_now w) = SunRaised e))
  /\ (forall e, load_sekki_data (w_sekki_json w) = Raise e ->
        main str_datetime format_2f w = ([], Propagated (Core e)))
  /\ (forall data e, load_sekki_data (w_sekki_json w) = Ok data ->
        w_sun_longitude w (w_now w) = SunRaised e ->
        main str_datetime format_2f w = ([], Propagated (Provider e))).
Proof.
  unfold main. split; [split|split].
  - destruct (load_sekki_data (w_sekki_json w)) as [data|e];
      [|intros _; left; eexists; reflexivity].
    destruct (w_sun_longitude w (w_now w)) as [longitude|e];
      [|intros _; right; eexists; reflexivity].
    intro H. exfalso.
    destruct (find_current_ko longitude data) as [[[s k] i]|e];
      [|discriminate H].
    destruct (format_message (w_now w) s k i) as [message|e];
      [|discriminate H].
    destruct (w_webhook_url w) as [url|];
      [destruct (truthy (Some url));
       [destruct (post_to_slack _ _ _)|]|]; discriminate H.
  - intros [(e & He)|(e & He)].
    + rewrite He. reflexivity.
    + rewrite He. destruct (load_sekki_data _); reflexivity.
  - intros e He. rewrite He. reflexivity.
  - intros data e Hd He. rewrite Hd, He. reflexivity.
Qed.

End Main.

Lemma main_returns_when_resolved_witness :
  w_sekki_json sample_world = Document sample_data /\
  Forall (fun t => (List.length (sekki_ko t) <= 3)%nat) (data_sekki sample_data) /\
  w_sun_longitude sample_world (w_now sample_world) = SunLongitude 5 /\
  find_current_ko 5 sample_data = Ok (sample_sekki 3, sample_ko 3 1, 1%Z) /\
  exists (out : list string) (message : string),
    main (fun _ => "now"%string) (fun _ => "5.00"%string) sample_world
    = (out, Returned)
    /\ format_message (w_now sample_world) (sample_sekki 3) (sample_ko 3 1) 1
       = Ok message
    /\ In (newline ++ "投稿メッセージ:" ++ newline ++ message)%string out
    /\ (truthy (w_webhook_url sample_world) = false ->
        last out ""%string = skip_line)
    /\ (forall webhook_url,
           w_webhook_url sample_world = Some webhook_url ->
           truthy (Some webhook_url) = true ->
           let request := mkRequest webhook_url message BOT_NAME ICON_URL 10 in
           (w_requests_post sample_world request = Response 200 ->
            last out ""%string = success_line)
           /\ (w_requests_post sample_world request <> Response 200 ->
               last out ""%string = failure_line)).
Proof.
  assert (Hd : w_sekki_json sample_world = Document sample_data) by reflexivity.
  assert (Hko : Forall (fun t => (List.length (sekki_ko t) <= 3)%nat)
                  (data_sekki sample_data)).
  { apply Forall_forall. intros t Ht.
    apply in_map_iff in Ht. destruct Ht as (i & <- & _). simpl. lia. }
  assert (Hs : w_sun_longitude sample_world (w_now sample_world) = SunLongitude 5)
    by reflexivity.
  assert (Hr : find_current_ko 5 sample_data
               = Ok (sample_sekki 3, sample_ko 3 1, 1%Z))
    by (vm_compute; reflexivity).
  split; [exact Hd|]. split; [exact Hko|]. split; [exact Hs|]. split; [exact Hr|].
  exact (main_returns_when_resolved (fun _ => "now"%string)
           (fun _ => "5.00"%string) sample_world sample_data 5 _ _ _
           Hd Hko Hs Hr).
Defined.

Lemma main_without_webhook_ignores_endpoint_witness :
  truthy (w_webhook_url quiet_world) = false /\
  main (fun _ => "now"%string) (fun _ => "5.00"%string) quiet_world
  = main (fun _ => "now"%string) (fun _ => "5.00"%string)
      (mkWorld (w_now quiet_world) (w_sekki_json quiet_world)
               (w_sun_longitude quiet_world) (w_webhook_url quiet_world)
               (fun _ => PostRaised "unreachable"%string)).
Proof.
  assert (T : truthy (w_webhook_url quiet_world) = false) by reflexivity.
  split; [assumption|].
  exact (main_without_webhook_ignores_endpoint (fun _ => "now"%string)
           (fun _ => "5.00"%string) quiet_world
           (fun _ => PostRaised "unreachable"%string) T).
Defined.

(** ** Longitudes from 360 on *)

(** X15.  On a well-formed table every longitude from 360 on (a float)
    falls to the wrapping term, through [longitude >= sekki_lon]: the offset
    [longitude - start] is a positive float and a third of the span is a
    positive float [c].  When the binary64 quotient [q] of the offset by [c]
    is finite, [find_current_ko] returns the wrapping term with the index
    [min(floor(q), 2)], in 0..2; when it is infinite, [find_current_ko]
    raises [OverflowError]. *)
Theorem large_longitude_wrapping_term (data : Data) (longitude : Q) (w : nat) :
  well_formed data -> (w < 24)%nat -> wraps data w = true ->
  is_float64 longitude -> 360 <= longitude ->
  active data longitude w = true
  /\ Qle_bool (lon_at data w) longitude = true
  /\ exists sv c o : Q,
       fadd (fsub (F 360) (F (lon_at data w))) (F (next_lon_at data w)) = F sv
       /\ fdiv (F sv) (F 3) = F c /\ 0 < c
       /\ fsub (F longitude) (F (lon_at data w)) = F o /\ 0 < o
       /\ match fdiv (F o) (F c) with
          | F q =>
            exists k,
              find_current_ko longitude data
              = Ok (nth w (data_sekki data) dummy_sekki, k, Z.min (Qfloor q) 2)
              /\ (0 <= Z.min (Qfloor q) 2 <= 2)%Z
              /\ nth_error (sekki_ko (nth w (data_sekki data) dummy_sekki))
                   (Z.to_nat (Z.min (Qfloor q) 2)) = Some k
          | Inf _ => find_current_ko longitude data = Raise OverflowError
          | NaN => False
          end.
Proof.
  intros Hwf Hw W Fx Hx.
  pose proof (well_formed_lon data w Hwf Hw) as Hlon.
  pose proof (well_formed_next_lon data w Hwf) as Hnext.
  destruct (well_formed_nth data w Hwf Hw) as ((_ & Hlen) & _).
  pose proof W as W'. unfold wraps in W'.
  assert (Hle : Qle_bool (lon_at data w) longitude = true).
  { apply Qle_bool_iff. destruct Hlon as (_ & _ & ?). lra. }
  assert (Hact : active data longitude w = true).
  { unfold active, in_range. rewrite W', Hle. reflexivity. }
  destruct (resolve_at data longitude w Hwf Hw Hact) as (_ & Hr).
  destruct (wrap_span _ _ Hlon Hnext W')
    as (d & sv & c & Hd & Fd & Ld & Ud & Hs & Es & Fs & Ls & Us
        & Hc & Ec & Fc & Lc & Uc).
  pose proof (pow2_pos (-44)) as P44. pose proof (pow2_pos (-46)) as P46.
  assert (C0 : 0 < c) by lra.
  destruct Hlon as (Fl & L0 & L1). destruct Fx as (Rx & _ & Bx).
  pose proof (float_below_360 _ Fl L1) as G.
  destruct (round64_between (longitude - lon_at data w) (pow2 (-44)) longitude)
    as (o & Ho & Eo & Lo & Uo).
  { apply round_val_pow2. lia. }
  { exact Rx. }
  { apply neg_max_below. lra. }
  { exact Bx. }
  { lra. }
  { lra. }
  assert (O0 : 0 < o) by lra.
  assert (Hoff : term_offset longitude (lon_at data w) (next_lon_at data w) = F o).
  { unfold term_offset. rewrite W', Hle. exact Ho. }
  assert (Hpd : py_div (term_span (lon_at data w) (next_lon_at data w)) (F 3)
                = Ok (F c)) by (rewrite py_div_three, Hs, Hc; reflexivity).
  split; [exact Hact|]. split; [exact Hle|].
  exists sv, c, o.
  unfold term_span in Hs. rewrite W' in Hs.
  split; [exact Hs|]. split; [exact Hc|]. split; [exact C0|].
  split; [exact Ho|]. split; [exact O0|].
  destruct (fdiv (F o) (F c)) as [q|s|] eqn:D.
  - assert (Q0 : 0 <= q).
    { apply (fdiv_not_negative (F o) (F c) q); simpl; trivial; lra. }
    destruct (find_ko_in_sekki_finite longitude
                (nth w (data_sekki data) dummy_sekki) (next_lon_at data w) c o q)
      as (k & Hk & Hb & Hnk); trivial; try lra.
    exists k. rewrite Hr. auto.
  - rewrite Hr, find_ko_in_sekki_eq. fold (lon_at data w).
    rewrite Hpd, Hoff. cbv beta iota delta [bind].
    rewrite py_div_nonzero by lra. rewrite D. reflexivity.
  - simpl in D. exact (round64_not_nan _ D).
Qed.

Lemma large_longitude_wrapping_term_witness :
  well_formed sample_data /\ (2 < 24)%nat /\ wraps sample_data 2 = true /\
  is_float64 725 /\ 360 <= 725 /\
  active sample_data 725 2 = true
  /\ Qle_bool (lon_at sample_data 2) 725 = true
  /\ exists sv c o : Q,
       fadd (fsub (F 360) (F (lon_at sample_data 2)))
            (F (next_lon_at sample_data 2)) = F sv
       /\ fdiv (F sv) (F 3) = F c /\ 0 < c
       /\ fsub (F 725) (F (lon_at sample_data 2)) = F o /\ 0 < o
       /\ match fdiv (F o) (F c) with
          | F q =>
            exists k,
              find_current_ko 725 sample_data
              = Ok (nth 2 (data_sekki sample_data) dummy_sekki, k,
                    Z.min (Qfloor q) 2)
              /\ (0 <= Z.min (Qfloor q) 2 <= 2)%Z
              /\ nth_error (sekki_ko (nth 2 (data_sekki sample_data) dummy_sekki))
                   (Z.to_nat (Z.min (Qfloor q) 2)) = Some k
          | Inf _ => find_current_ko 725 sample_data = Raise OverflowError
          | NaN => False
          end.
Proof.
  assert (Hwf : well_formed sample_data) by exact sample_data_well_formed.
  assert (Hw : (2 < 24)%nat) by lia.
  assert (W : wraps sample_data 2 = true) by reflexivity.
  assert (Fx : is_float64 725)
    by (apply is_float64b_spec; vm_compute; reflexivity).
  assert (Hx : 360 <= 725) by (vm_compute; discriminate).
  do 5 (split; [assumption|]).
  exact (large_longitude_wrapping_term sample_data 725 2 Hwf Hw W Fx Hx).
Defined.

(** ** The order of the table *)




Section Rotate.

Variable data : Data.
Hypothesis len24 : List.length (data_sekki data) = 24%nat.








End Rotate.



